(** * A shallow embedding of the slice iterator (package [iterator])

    The Go package wraps a slice in a cursor ([iter]) that carries a list of
    pending operations (closures over a reusable [maybe] cell).  The embedding
    keeps that shape:

    - a Go closure [func(A) B] is a function into the monad [M], which threads
      the store of closure-captured variables (the [seen] maps that [Unique]
      allocates) and can panic;
    - the cursor is a record that every method takes and returns (the pointer
      receiver [it *iter[T]]);
    - a slice made with an explicit capacity keeps that capacity;
    - a goroutine is the deferred run of its body, observed through the
      operations it performs on its channel. *)

From stdpp Require Import gmap strings list.
From Stdlib Require Import ZArith Lia.

(* stdpp's set_solver clears hypotheses that are sometimes already gone *)
Set Warnings "-clear-no-such-hyp".

Local Open Scope Z_scope.

(** ** Outcomes of running Go code *)

(** The run-time panics the package's own code can raise, and the one a
    caller-supplied function raises. *)
Inductive panic : Set :=
  | MakesliceCapOutOfRange   (* runtime error: makeslice: cap out of range *)
  | IndexOutOfRange          (* runtime error: index out of range *)
  | UnhashableKey            (* runtime error: hash of unhashable type *)
  | InterfaceOnZeroValue     (* reflect: call of reflect.Value.Interface on zero Value *)
  | KindOnNilType            (* nil pointer dereference: Kind() on a nil reflect.Type *)
  | LockOfHeldMutex          (* fatal error: all goroutines are asleep - deadlock! *)
  | CallerPanic.             (* a panic raised inside a caller-supplied function *)

Inductive outcome (A : Type) : Type :=
  | Ok (a : A)
  | Panic (p : panic)
  | Timeout.                 (* the loop bound of the model was exhausted *)
Arguments Ok {A} a.
Arguments Panic {A} p.
Arguments Timeout {A}.

Global Instance outcome_ret : MRet outcome := @Ok.
Global Instance outcome_bind : MBind outcome := fun A B f m =>
  match m with
  | Ok a => f a
  | Panic p => Panic p
  | Timeout => Timeout
  end.

Global Instance panic_eq_dec : EqDecision panic.
Proof. solve_decision. Defined.

(** ** Element types *)

(** [reflect.Kind], as far as the package looks at it: [Unique] only asks
    whether the kind is [reflect.Ptr]. *)
Inductive Kind : Set := Ptr | OtherKind.

Global Instance Kind_eq_dec : EqDecision Kind.
Proof. solve_decision. Defined.

(** What the package does with values of its type parameter [T any]:
    it takes the zero value ([*new(T)]), converts values to [any] to use them
    as keys of a [map[any]struct{}], and inspects them through [reflect]. *)
Class GoType (T : Type) := {
  (** [*new(T)] *)
  zero : T;
  (** interface values: a dynamic type with a value; equality on [any] is
      Go's [==] on interface values *)
  any : Type;
  any_eq_dec :: EqDecision any;
  any_countable :: Countable any;
  (** whether the dynamic type can be hashed; indexing a map with an
      unhashable key panics *)
  hashable : any → bool;
  (** the conversion [any(val)] *)
  toAny : T → any;
  (** [reflect.TypeOf( *new(T) ).Kind()]: [TypeOf] returns the nil [Type] for
      a nil interface value, so for an interface type [T] there is no kind
      (the method call panics) *)
  kindOfZero : option Kind;
  (** [reflect.ValueOf(val).Elem().Interface()] for a pointer [val]: the
      pointee as an interface value; [Elem] of a nil pointer is the zero
      [Value], on which [Interface] panics *)
  elemInterface : T → option any;
}.

(** ** The runtime *)

(** What the package leaves to the Go runtime when it makes and grows the
    slice of operations. *)
Class Runtime := {
  (** the largest capacity for which [make] returns a slice of func values;
      [make] panics on a negative capacity and on one beyond this limit *)
  maxFuncCap : Z;
  (** the capacity [append] gives the new array when the old one is full,
      from the old capacity and the length needed *)
  growCap : Z → Z → Z;
}.

(** A 64-bit runtime: allocations up to 2^48 bytes, func values of one word,
    capacities doubled. *)
Global Instance runtime64 : Runtime := {|
  maxFuncCap := 2 ^ 45;
  growCap := fun old n => Z.max n (2 * old);
|}.

Section Iterator.
Context {RT : Runtime} {T : Type} `{GoType T}.

(** ** The store of closure-captured variables *)

(** Every call of [Unique] allocates one [seen] map; the closure it registers
    keeps a reference to it.  The store maps such references to the key sets
    of the maps. *)
Abbreviation heap := (gmap nat (gset any)).

(** Go code running against the store. *)
Definition M (A : Type) : Type := heap → outcome (A * heap).

(** A function that touches no captured variable and does not panic. *)
Definition pure_fn {A B : Type} (f : A → B) : A → M B :=
  fun a h => Ok (f a, h).

Definition pure_fn2 {A B C : Type} (f : A → B → C) : A → B → M C :=
  fun a b h => Ok (f a b, h).

(** [seen[k]] and [seen[k] = struct{}{}]; both hash the key first. *)
Definition map_has (seen : nat) (k : any) : M bool := fun h =>
  if hashable k then Ok (bool_decide (k ∈ h !!! seen), h)
  else Panic UnhashableKey.

Definition map_set (seen : nat) (k : any) : M unit := fun h =>
  if hashable k then Ok (tt, <[seen := {[k]} ∪ h !!! seen]> h)
  else Panic UnhashableKey.

(** [make(map[any]struct{}, n)]: a fresh, empty map. *)
Definition make_map : M nat := fun h =>
  let r := fresh (dom h) in Ok (r, <[r := ∅]> h).

(** ** Slices with a capacity *)

Record slice (A : Type) : Type := Slice {
  elems : list A;
  capacity : Z;
}.
Arguments Slice {A} elems capacity.
Arguments elems {A} s.
Arguments capacity {A} s.

(** [make([]func(m), 0, cap)], for the operations [func(m *maybe[T])] *)
Definition makeslice {A : Type} (cap : Z) : outcome (slice A) :=
  if bool_decide (cap < 0 ∨ maxFuncCap < cap)
  then Panic MakesliceCapOutOfRange
  else Ok (Slice [] cap).

(** [append(s, x)]: in place while the capacity lasts, otherwise into a new
    array of the capacity the runtime chooses. *)
Definition append {A : Type} (s : slice A) (x : A) : slice A :=
  let n := Z.of_nat (length (elems s)) + 1 in
  if bool_decide (n ≤ capacity s)
  then Slice (elems s ++ [x]) (capacity s)
  else Slice (elems s ++ [x]) (growCap (capacity s) n).

(** [make([]T, n)] and [copy(dst, src)]. *)
Definition make_zeroed (n : nat) : list T := replicate n zero.

Definition copy (dst src : list T) : list T :=
  take (length dst) src ++ drop (length src) dst.

(** ** The cursor *)

Record maybe : Type := Maybe {
  ok : bool;   (* whether the current element should be included in the result *)
  val : T;     (* the value of the current element *)
}.

(** The two functions [nextFunc] can point to. *)
Inductive nextFn : Set := next_fn | synchronizedNext_fn.

(** [nextIndex] only ever counts up from 0 to [len(source)], so it is a
    natural number here; [source] is the content of the slice the cursor
    reads. *)
Record iter : Type := Iter {
  mu : bool;                               (* the mutex: [true] while held *)
  nextFunc : nextFn;
  nextIndex : nat;
  source : list T;
  operations : slice (maybe → M maybe);
}.

Definition set_mu (b : bool) (it : iter) : iter :=
  Iter b (nextFunc it) (nextIndex it) (source it) (operations it).
Definition set_nextIndex (n : nat) (it : iter) : iter :=
  Iter (mu it) (nextFunc it) n (source it) (operations it).
Definition set_operations (ops : slice (maybe → M maybe)) (it : iter) : iter :=
  Iter (mu it) (nextFunc it) (nextIndex it) (source it) ops.

(** ** Options *)

Record fromOptions : Set := FromOptions {
  copySource : bool;
  threadSafe : bool;
  bufferLen : Z;
}.
Definition FromOption : Set := fromOptions → fromOptions.

Definition CopySource (shouldCopy : bool) : FromOption :=
  fun opts => FromOptions shouldCopy (threadSafe opts) (bufferLen opts).
Definition ThreadSafe (shouldLock : bool) : FromOption :=
  fun opts => FromOptions (copySource opts) shouldLock (bufferLen opts).
Definition BufferLen (n : Z) : FromOption :=
  fun opts => FromOptions (copySource opts) (threadSafe opts) n.

Record uniqueOptions : Set := UniqueOptions { deref : bool }.
Definition UniqueOption : Set := uniqueOptions → uniqueOptions.
Definition DerefPointers (shouldDeref : bool) : UniqueOption :=
  fun _ => UniqueOptions shouldDeref.

Record intoChannelOptions : Set := IntoChannelOptions { closeChannel : bool }.
Definition IntoChannelOption : Set := intoChannelOptions → intoChannelOptions.
Definition CloseChannel (shouldClose : bool) : IntoChannelOption :=
  fun _ => IntoChannelOptions shouldClose.

(** [for _, opt := range opts { opt(options) }] *)
Definition apply_opts {O : Type} (opts : list (O → O)) (o : O) : O :=
  foldl (fun o opt => opt o) o opts.

(** ** Construction *)

Definition From (src : list T) (opts : list FromOption) : outcome iter :=
  let options := apply_opts opts (FromOptions false false 64) in
  let source' :=
    if copySource options then copy (make_zeroed (length src)) src else src in
  let nextFunc' :=
    if threadSafe options then synchronizedNext_fn else next_fn in
  ops ← makeslice (bufferLen options);
  Ok (Iter false nextFunc' 0 source' ops).

(** ** Raw stepping *)

Definition next (it : iter) : outcome (T * bool * iter) :=
  (* it.nextIndex >= len(it.source) *)
  if bool_decide (length (source it) ≤ nextIndex it)%nat
  then Ok (zero, false, it)
  else
    match source it !! nextIndex it with
    | Some v => Ok (v, true, set_nextIndex (nextIndex it + 1) it)
    | None => Panic IndexOutOfRange
    end.

Definition Lock (it : iter) : outcome iter :=
  if mu it then Panic LockOfHeldMutex else Ok (set_mu true it).
Definition Unlock (it : iter) : iter := set_mu false it.

Definition synchronizedNext (it : iter) : outcome (T * bool * iter) :=
  it ← Lock it;
  '(v, b, it) ← next it;
  Ok (v, b, Unlock it).

Definition Next (it : iter) : outcome (T * bool * iter) :=
  match nextFunc it with
  | next_fn => next it
  | synchronizedNext_fn => synchronizedNext it
  end.

(** [ForEach]'s [for] loop, with a bound on the number of iterations.  The
    callback is a closure over local variables of its creator; [St] is the
    type of what it captures. *)
Fixpoint ForEach_loop {St : Type} (fuel : nat) (fn : T → St → outcome St)
    (it : iter) (s : St) : outcome (iter * St) :=
  match fuel with
  | O => Timeout
  | S fuel =>
      '(v, b, it) ← Next it;
      if negb b then Ok (it, s)
      else s ← fn v s; ForEach_loop fuel fn it s
  end.

(** One iteration per remaining element and one for the exit. *)
Definition ForEach {St : Type} (fn : T → St → outcome St) (it : iter) (s : St)
    : outcome (iter * St) :=
  ForEach_loop (S (length (source it) - nextIndex it)) fn it s.

(** ** Registering operations *)

(** The closures [Map] and [Filter] append; they work on the cell [m]. *)
Definition map_op (fn : T → M T) : maybe → M maybe := fun m h =>
  '(v, h) ← fn (val m) h; Ok (Maybe (ok m) v, h).

Definition filter_op (fn : T → M bool) : maybe → M maybe := fun m h =>
  '(b, h) ← fn (val m) h; Ok (Maybe b (val m), h).

Definition Map (fn : T → M T) (it : iter) : iter :=
  set_operations (append (operations it) (map_op fn)) it.

Definition Filter (fn : T → M bool) (it : iter) : iter :=
  set_operations (append (operations it) (filter_op fn)) it.

(** The two filter functions of [Unique], over the map [seen]. *)
Definition unique_filterFn (seen : nat) : T → M bool := fun v h =>
  '(found, h) ← map_has seen (toAny v) h;
  if found : bool then Ok (false, h)
  else '(_, h) ← map_set seen (toAny v) h; Ok (true, h).

Definition unique_derefFilterFn (seen : nat) : T → M bool := fun v h =>
  match elemInterface v with
  | None => Panic InterfaceOnZeroValue
  | Some k =>
      '(found, h) ← map_has seen k h;
      if found : bool then Ok (false, h)
      else '(_, h) ← map_set seen k h; Ok (true, h)
  end.

Definition Unique (opts : list UniqueOption) (it : iter) : M iter := fun h =>
  let options := apply_opts opts (UniqueOptions false) in
  '(seen, h) ← make_map h;
  usePointee ←
    (if deref options
     then match kindOfZero with
          | Some k => Ok (bool_decide (k = Ptr))
          | None => Panic KindOnNilType
          end
     else Ok false);
  let filterFn :=
    if usePointee : bool then unique_derefFilterFn seen
    else unique_filterFn seen in
  Ok (Filter filterFn it, h).

(** ** Pipeline evaluation *)

(** [for _, op := range it.operations { op(mb); if !mb.ok { break } }] *)
Fixpoint run_operations (ops : list (maybe → M maybe)) (mb : maybe)
    : M maybe := fun h =>
  match ops with
  | [] => Ok (mb, h)
  | op :: ops =>
      '(mb, h) ← op mb h;
      if negb (ok mb) then Ok (mb, h) else run_operations ops mb h
  end.

(** The callback of [Collect]; it captures [result], [mb] and, through the
    operations, the store. *)
Definition collect_fn (ops : list (maybe → M maybe)) (v : T)
    (s : list T * maybe * heap) : outcome (list T * maybe * heap) :=
  let '(result, mb, h) := s in
  let mb := Maybe true v in
  '(mb, h) ← run_operations ops mb h;
  let result := if ok mb then result ++ [val mb] else result in
  Ok (result, Maybe false (val mb), h).

(** [result] is made with capacity [len(it.source)], which the source itself
    shows to be allocatable. *)
Definition Collect (it : iter) : M (list T * iter) := fun h =>
  let result := [] in
  let mb := Maybe false zero in
  '(it, (result, _, h)) ← ForEach (collect_fn (elems (operations it))) it (result, mb, h);
  Ok (result, it, h).

Definition Reduce (fn : T → T → M T) (initial : T) (it : iter)
    : M (T * iter) := fun h =>
  '(it, (result, h)) ←
    ForEach (fun v '(result, h) => fn result v h) it (initial, h);
  Ok (result, it, h).

Definition Reset (it : iter) : iter := set_nextIndex 0 it.

(** ** Channels *)

(** A buffered channel: the queued values, the capacity and whether it has
    been closed. *)
Record chan : Type := Chan {
  chan_buf : list T;
  chan_cap : nat;
  chan_closed : bool;
}.

(** [make(chan T, n)] *)
Definition make_chan (n : nat) : chan := Chan [] n false.

(** What a goroutine does to its channel: [ch <- v] and [close(ch)]. *)
Inductive chanOp : Type :=
  | Send (v : T)
  | Close.

(** The body of a [go func() { ... }()] statement.  It runs later, on the
    cursor as it then is, and is observed through the channel operations it
    performs, in order. *)
Definition goroutine : Type := iter → outcome (iter * list chanOp).

Definition IntoChannel (opts : list IntoChannelOption) : goroutine := fun it =>
  let icos := apply_opts opts (IntoChannelOptions false) in
  '(it, ops) ← ForEach (fun v ops => Ok (ops ++ [Send v])) it [];
  (* the deferred close *)
  Ok (it, if closeChannel icos then ops ++ [Close] else ops).

Definition Channel (it : iter) : chan * goroutine :=
  let ch := make_chan (length (source it)) in
  (ch, IntoChannel [CloseChannel true]).

Definition CollectIntoChannel (opts : list IntoChannelOption)
    : iter → M (iter * list chanOp) := fun it h =>
  let icos := apply_opts opts (IntoChannelOptions false) in
  '(result, it, h) ← Collect it h;
  let ops := Send <$> result in
  Ok (it, if closeChannel icos then ops ++ [Close] else ops, h).

Definition CollectChannel (it : iter) : chan * (iter → M (iter * list chanOp)) :=
  let ch := make_chan (length (source it)) in
  (ch, CollectIntoChannel [CloseChannel true]).

(** A channel together with the operations its producer still has to
    perform and the values its consumers have received so far. *)
Record delivery : Type := Delivery {
  d_chan : chan;
  d_todo : list chanOp;
  d_received : list T;
}.

(** The steps of a producer and any number of receivers on one channel.
    A send completes when the buffer has room, or hands its value to a
    waiting receiver (the buffer is then empty); a send on a closed channel
    does not complete.  A receive takes the oldest queued value. *)
Inductive delivery_step : delivery → delivery → Prop :=
  | step_send buf cap v todo rcv :
      (length buf < cap)%nat →
      delivery_step (Delivery (Chan buf cap false) (Send v :: todo) rcv)
                    (Delivery (Chan (buf ++ [v]) cap false) todo rcv)
  | step_handoff cap v todo rcv :
      delivery_step (Delivery (Chan [] cap false) (Send v :: todo) rcv)
                    (Delivery (Chan [] cap false) todo (rcv ++ [v]))
  | step_close buf cap todo rcv :
      delivery_step (Delivery (Chan buf cap false) (Close :: todo) rcv)
                    (Delivery (Chan buf cap true) todo rcv)
  | step_receive v buf cap closed todo rcv :
      delivery_step (Delivery (Chan (v :: buf) cap closed) todo rcv)
                    (Delivery (Chan buf cap closed) todo (rcv ++ [v])).

(** The producer can take its next step without any help of a receiver. *)
Definition producer_enabled (d : delivery) : Prop :=
  match d_todo d with
  | [] => False
  | Send _ :: _ =>
      chan_closed (d_chan d) = false ∧
      (length (chan_buf (d_chan d)) < chan_cap (d_chan d))%nat
  | Close :: _ => chan_closed (d_chan d) = false
  end.

End Iterator.

Arguments Slice {A} elems capacity.
Arguments elems {A} s.
Arguments capacity {A} s.
Arguments maybe T : clear implicits.
Arguments iter T {_}.
Arguments chan T : clear implicits.
Arguments chanOp T : clear implicits.
Arguments delivery T : clear implicits.
Arguments M T {_} A.
Arguments goroutine T {_}.

Abbreviation heap T := (gmap nat (gset (any (T := T)))).

(** ** Some element types *)

(** [int]: a comparable value type. *)
Global Instance int_GoType : GoType Z := {|
  zero := 0;
  any := Z;
  hashable := fun _ => true;
  toAny := fun z => z;
  kindOfZero := Some OtherKind;
  elemInterface := fun _ => None;
|}.

(** [string] *)
Global Instance string_GoType : GoType string := {|
  zero := EmptyString;
  any := string;
  hashable := fun _ => true;
  toAny := fun s => s;
  kindOfZero := Some OtherKind;
  elemInterface := fun _ => None;
|}.

(** [[]int]: slices cannot be hashed. *)
Global Instance intSlice_GoType : GoType (list Z) := {|
  zero := [];
  any := list Z;
  hashable := fun _ => false;
  toAny := fun l => l;
  kindOfZero := Some OtherKind;
  elemInterface := fun _ => None;
|}.

(** Pointers [*V] into a memory [mem]: [None] is [nil], [Some a] the address
    [a].  As interface values, pointers are compared by address; the pointee
    of a pointer is the interface value of what the memory holds there. *)
Definition ptr : Set := option nat.

Definition ptr_GoType {V : Type} `{GoType V} (mem : nat → V) : GoType ptr := {|
  zero := None;
  any := ptr + any;
  hashable := fun k => match k with inl _ => true | inr v => hashable v end;
  toAny := fun p => inl p;
  kindOfZero := Some Ptr;
  elemInterface := fun p => match p with
                           | None => None
                           | Some a => Some (inr (toAny (mem a)))
                           end;
|}.

(** The key of a pointer under [DerefPointers(true)], and the injection of
    pointees into interface values. *)
Definition pointee_key {V : Type} `{GoType V} (mem : nat → V) (p : ptr)
    : any (GoType := ptr_GoType mem) :=
  match p return ptr + any (T := V) with
  | Some a => inr (toAny (mem a))
  | None => inl None
  end.

Definition pointee_inj {V : Type} `{GoType V} (mem : nat → V) (o : option V)
    : any (GoType := ptr_GoType mem) :=
  match o return ptr + any (T := V) with
  | Some v => inr (toAny v)
  | None => inl None
  end.

(** An interface type holding ints, such as [any] itself: [None] is the nil
    interface. *)
Definition boxed : Set := option Z.

Global Instance boxed_GoType : GoType boxed := {|
  zero := None;
  any := option Z;
  hashable := fun _ => true;
  toAny := fun b => b;
  kindOfZero := None;
  elemInterface := fun _ => None;
|}.

Local Close Scope Z_scope.

(** * Vocabulary of the properties *)

Section Vocabulary.
Context {RT : Runtime} {T : Type} `{GoType T}.
Implicit Types (it : iter T) (h : heap T) (ops : list (maybe T → M T (maybe T))).

(** A cursor between two calls of a sequential client: nobody holds the
    mutex, and the index has not run past the source. *)
Definition valid it : Prop :=
  mu it = false ∧ nextIndex it ≤ length (source it).

(** Folding a callback over a list of elements, stopping at a panic. *)
Fixpoint fold_outcome {St : Type} (fn : T → St → outcome St) (l : list T) (s : St)
    : outcome St :=
  match l with
  | [] => Ok s
  | x :: l => s ← fn x s; fold_outcome fn l s
  end.

(** The pipeline in the words of the specification: the in-flight value
    starts as the raw element with the keep flag set; the steps run in
    registration order; the first step that clears the flag ends the run
    and the element is dropped; an element that keeps its flag through all
    steps yields its final value. *)
Fixpoint through_steps ops (v : T) : M T (option T) := fun h =>
  match ops with
  | [] => Ok (Some v, h)
  | op :: ops =>
      '(m, h) ← op (Maybe true v) h;
      if ok m then through_steps ops (val m) h else Ok (None, h)
  end.

(** The kept values of a list of raw elements, in the order of the list. *)
Fixpoint collect_elements ops (l : list T) : M T (list T) := fun h =>
  match l with
  | [] => Ok ([], h)
  | x :: l =>
      '(r, h) ← through_steps ops x h;
      '(rest, h) ← collect_elements ops l h;
      Ok (match r with Some y => y :: rest | None => rest end, h)
  end.

(** What both filter functions of [Unique] do with a hashable key: drop the
    element when the key is in the map, record the key and keep the element
    otherwise. *)
Definition seen_filter (seen : nat) (k : any) : M T bool := fun h =>
  if decide (k ∈ h !!! seen) then Ok (false, h)
  else Ok (true, <[seen := {[k]} ∪ h !!! seen]> h).

(** The options as [From] sees them after applying [opts] to the defaults. *)
Definition from_options (opts : list FromOption) : fromOptions :=
  apply_opts opts (FromOptions false false 64).

(** [p1(x) && p2(x)]: the second predicate runs only when the first
    holds. *)
Definition and_fn (p1 p2 : T → M T bool) : T → M T bool := fun x h =>
  '(b, h) ← p1 x h; if b : bool then p2 x h else Ok (false, h).

(** What a caller sees of a [Collect]: the slice, the index the cursor is left
    at, and the state of the captured variables. *)
Definition collected (r : outcome (list T * iter T * heap T))
    : outcome (list T * nat * heap T) :=
  '(l, it, h) ← r; Ok (l, nextIndex it, h).

(** The values a list of channel operations sends, in order. *)
Definition sends (ops : list (chanOp T)) : list T :=
  omap (fun op => match op with Send v => Some v | Close => None end) ops.

(** A result that is a value or the caller's panic. *)
Definition no_library_failure {A : Type} (r : outcome A) : Prop :=
  (∃ a, r = Ok a) ∨ r = Panic CallerPanic.

(** A caller-supplied function: it returns, or raises the caller's panic. *)
Definition caller_fn {A B : Type} (f : A → M T B) : Prop :=
  ∀ a h, no_library_failure (f a h).

(** Operations that can only fail with the caller's panic. *)
Definition safe_operations it : Prop :=
  Forall (fun op => ∀ m h, no_library_failure (op m h)) (elems (operations it)).

(** *** Clients *)

(** The calls a client can make on a cursor: the methods of the interface
    [Of[T]].  A call that starts a goroutine is followed by the run of that
    goroutine. *)
Inductive call : Type :=
  | CallNext
  | CallForEach (fn : T → M T unit)
  | CallMap (fn : T → M T T)
  | CallFilter (fn : T → M T bool)
  | CallUnique (opts : list UniqueOption)
  | CallCollect
  | CallChannel
  | CallIntoChannel (opts : list IntoChannelOption)
  | CallCollectChannel
  | CallCollectIntoChannel (opts : list IntoChannelOption)
  | CallReduce (fn : T → T → M T T) (initial : T)
  | CallReset.

(** What the client gets to see of a call. *)
Inductive observation : Type :=
  | ObsNext (v : T) (present : bool)
  | ObsSlice (l : list T)
  | ObsValue (v : T)
  | ObsChannel (made : option (chan T)) (ops : list (chanOp T))
  | ObsDone.

Definition run_call (c : call) it h : outcome (observation * iter T * heap T) :=
  match c with
  | CallNext => '(v, b, it) ← Next it; Ok (ObsNext v b, it, h)
  | CallForEach fn =>
      '(it, h) ← ForEach (fun v h => '(_, h) ← fn v h; Ok h) it h;
      Ok (ObsDone, it, h)
  | CallMap fn => Ok (ObsDone, Map fn it, h)
  | CallFilter fn => Ok (ObsDone, Filter fn it, h)
  | CallUnique opts => '(it, h) ← Unique opts it h; Ok (ObsDone, it, h)
  | CallCollect => '(l, it, h) ← Collect it h; Ok (ObsSlice l, it, h)
  | CallChannel =>
      '(it', ops) ← (Channel it).2 it; Ok (ObsChannel (Some (Channel it).1) ops, it', h)
  | CallIntoChannel opts =>
      '(it, ops) ← IntoChannel opts it; Ok (ObsChannel None ops, it, h)
  | CallCollectChannel =>
      '(it', ops, h) ← (CollectChannel it).2 it h;
      Ok (ObsChannel (Some (CollectChannel it).1) ops, it', h)
  | CallCollectIntoChannel opts =>
      '(it, ops, h) ← CollectIntoChannel opts it h; Ok (ObsChannel None ops, it, h)
  | CallReduce fn initial =>
      '(v, it, h) ← Reduce fn initial it h; Ok (ObsValue v, it, h)
  | CallReset => Ok (ObsDone, Reset it, h)
  end.

Fixpoint run_calls (cs : list call) it h
    : outcome (list observation * iter T * heap T) :=
  match cs with
  | [] => Ok ([], it, h)
  | c :: cs =>
      '(o, it, h) ← run_call c it h;
      '(os, it, h) ← run_calls cs it h;
      Ok (o :: os, it, h)
  end.

(** The observations of a client, and the state of the captured variables at
    the end. *)
Definition observations (r : outcome (list observation * iter T * heap T))
    : outcome (list observation * heap T) :=
  '(os, _, h) ← r; Ok (os, h).

(** Two cursors that differ at most in the capacity of the operations
    slice. *)
Definition same_but_capacity it1 it2 : Prop :=
  mu it1 = mu it2 ∧ nextFunc it1 = nextFunc it2 ∧
  nextIndex it1 = nextIndex it2 ∧ source it1 = source it2 ∧
  elems (operations it1) = elems (operations it2).

End Vocabulary.

Arguments call T {_}.
Arguments observation T : clear implicits.

(** Two runs that end alike, with results related by [R]. *)
Definition outcome_rel {A B : Type} (R : A → B → Prop)
    (r1 : outcome A) (r2 : outcome B) : Prop :=
  match r1, r2 with
  | Ok a, Ok b => R a b
  | Panic p, Panic q => p = q
  | Timeout, Timeout => True
  | _, _ => False
  end.

(** The elements of [l] whose key is neither in [seen] nor the key of an
    earlier element of [l], in the order of [l]. *)
Definition new_occurrences {A K : Type} `{EqDecision K}
    (key : A → K) (seen : list K) (l : list A) : list A :=
  omap id (imap (fun i x =>
    if decide (key x ∈ seen ++ (key <$> take i l)) then None else Some x) l).

(** The first occurrence of every value of [l], in the order of [l]: an
    element is dropped when an equal one occurs before it. *)
Definition first_occurrences {A : Type} `{EqDecision A} (l : list A) : list A :=
  new_occurrences id [] l.

(** The same list, computed from left to right with the set of keys met so
    far. *)
Fixpoint dedup_acc {A K : Type} `{Countable K}
    (key : A → K) (seen : gset K) (l : list A) : list A :=
  match l with
  | [] => []
  | x :: l =>
      if decide (key x ∈ seen) then dedup_acc key seen l
      else x :: dedup_acc key ({[key x]} ∪ seen) l
  end.

(** Element types on which Go's [==] is the equality of the model: every
    value can be hashed, and two values are equal as interface values exactly
    when they are equal. *)
Class Comparable (T : Type) `{GoType T} : Prop := {
  comparable_hashable : ∀ x : T, hashable (toAny x) = true;
  comparable_inj :: Inj (=) (=) (toAny (T := T));
}.

Global Instance int_Comparable : Comparable Z.
Proof. split; [done|]. by intros ???. Qed.

Global Instance string_Comparable : Comparable string.
Proof. split; [done|]. by intros ???. Qed.

(** ** Cursors used as examples *)

Local Open Scope Z_scope.

Definition even (x : Z) : bool := Z.rem x 2 =? 0.
Definition div3 (x : Z) : bool := Z.rem x 3 =? 0.

(** [From([]int{1, 2, 3, 2, 1})], and the same with two operations
    registered. *)
Definition ints_it : iter Z :=
  Iter false next_fn 0 [1; 2; 3; 2; 1] (Slice [] 64).

Definition ints_pipeline_it : iter Z :=
  Filter (pure_fn even) (Map (pure_fn (fun x => x * 2)) ints_it).

(** A thread-safe cursor that has already yielded two elements. *)
Definition ints_sync_it : iter Z :=
  Iter false synchronizedNext_fn 2 [1; 2; 3; 2; 1] (Slice [] 64).

(** A memory with [int]s: addresses 0 and 1 hold 7, all others hold 9. *)
Definition ints_mem (a : nat) : Z := if (a <=? 1)%nat then 7 else 9.

(** [From([]*int{p0, p1, p2, p0})] and [From([]*int{p0, nil})] over that
    memory. *)
Definition ptrs_it : @iter ptr (ptr_GoType ints_mem) :=
  Iter false next_fn 0 [Some 0; Some 1; Some 2; Some 0]%nat (Slice [] 64).

Definition ptrs_nil_it : @iter ptr (ptr_GoType ints_mem) :=
  Iter false next_fn 0 [Some 0%nat; None] (Slice [] 64).

Local Close Scope Z_scope.

(** * Further code: the benchmarks' slice functions, chains, caller's slices *)

Section Further.
Context {RT : Runtime} {T : Type} `{GoType T}.
Implicit Types (it : iter T) (h : heap T).

(** ** [genericMap] and [genericFilter] *)

(** [for i := range source { result[i] = fn(source[i]) }]; an index outside
    [source] or [result] would panic. *)
Fixpoint genericMap_loop (fn : T → M T T) (source : list T) (idxs : list nat)
    (result : list T) : M T (list T) := fun h =>
  match idxs with
  | [] => Ok (result, h)
  | i :: idxs =>
      match source !! i with
      | Some x =>
          '(y, h) ← fn x h;
          if decide (i < length result)
          then genericMap_loop fn source idxs (<[i := y]> result) h
          else Panic IndexOutOfRange
      | None => Panic IndexOutOfRange
      end
  end.

Definition genericMap (source : list T) (fn : T → M T T) : M T (list T) :=
  let result := make_zeroed (length source) in
  genericMap_loop fn source (seq 0 (length source)) result.

(** [for i := range source { if fn(source[i]) { result = append(result, source[i]) } }] *)
Fixpoint genericFilter_loop (fn : T → M T bool) (source : list T) (idxs : list nat)
    (result : list T) : M T (list T) := fun h =>
  match idxs with
  | [] => Ok (result, h)
  | i :: idxs =>
      match source !! i with
      | Some x =>
          '(b, h) ← fn x h;
          genericFilter_loop fn source idxs (if b : bool then result ++ [x] else result) h
      | None => Panic IndexOutOfRange
      end
  end.

Definition genericFilter (source : list T) (fn : T → M T bool) : M T (list T) :=
  genericFilter_loop fn source (seq 0 (length source)) [].

(** Applying a function to the elements of a list in order, threading the
    store. *)
Fixpoint map_outcome (fn : T → M T T) (l : list T) : M T (list T) := fun h =>
  match l with
  | [] => Ok ([], h)
  | x :: l =>
      '(y, h) ← fn x h; '(ys, h) ← map_outcome fn l h; Ok (y :: ys, h)
  end.

Fixpoint filter_outcome (fn : T → M T bool) (l : list T) : M T (list T) := fun h =>
  match l with
  | [] => Ok ([], h)
  | x :: l =>
      '(b, h) ← fn x h; '(ys, h) ← filter_outcome fn l h;
      Ok (if b : bool then x :: ys else ys, h)
  end.

(** ** Chains of [Map] and [Filter] with functions without effects *)

(** The benchmarks register such chains:
    [iter.Filter(isEven).Map(times2).Filter(isDiv3).Map(div2)]. *)
Inductive step : Type :=
  | MapStep (f : T → T)
  | FilterStep (p : T → bool).

Definition register_step (it : iter T) (st : step) : iter T :=
  match st with
  | MapStep f => Map (pure_fn f) it
  | FilterStep p => Filter (pure_fn p) it
  end.

(** The operation a step appends. *)
Definition step_op (st : step) : maybe T → M T (maybe T) :=
  match st with
  | MapStep f => map_op (pure_fn f)
  | FilterStep p => filter_op (pure_fn p)
  end.

(** What a step makes of a slice, and of one element that is still kept. *)
Definition stage (st : step) (l : list T) : list T :=
  match st with
  | MapStep f => f <$> l
  | FilterStep p => List.filter p l
  end.

Definition stage_elem (st : step) (o : option T) : option T :=
  match st with
  | MapStep f => f <$> o
  | FilterStep p => o ≫= fun y => if p y then Some y else None
  end.

(** [it.st1(...).st2(...)...] *)
Definition register (it : iter T) (steps : list step) : iter T :=
  foldl register_step it steps.

(** The same chain as the benchmarks without iterator run it: one pass over
    the whole slice per stage, with [genericMap] and [genericFilter]. *)
Fixpoint stage_by_stage (steps : list step) (l : list T) : M T (list T) := fun h =>
  match steps with
  | [] => Ok (l, h)
  | MapStep f :: steps =>
      '(l, h) ← genericMap l (pure_fn f) h; stage_by_stage steps l h
  | FilterStep p :: steps =>
      '(l, h) ← genericFilter l (pure_fn p) h; stage_by_stage steps l h
  end.

(** The slice a chain leaves of a slice. *)
Definition staged (steps : list step) (l : list T) : list T :=
  foldl (fun l st => stage st l) l steps.

(** [f2(f1(x))], with the effects of [f1] before those of [f2]. *)
Definition then_fn (f1 f2 : T → M T T) : T → M T T := fun x h =>
  '(y, h) ← f1 x h; f2 y h.

(** ** The slice of the caller *)

(** [From] is given a slice of the caller.  Without [CopySource] the cursor
    reads the caller's backing array, with it a new array that [From] fills
    by [copy].  The arrays live in a memory; [backing] is the array the
    cursor's [source] points to, and the cursor sees what that array holds
    when it is used. *)
Record handle : Type := Handle {
  backing : nat;
  cursor : iter T;
}.

Definition set_source (l : list T) (it : iter T) : iter T :=
  Iter (mu it) (nextFunc it) (nextIndex it) l (operations it).

Definition FromSlice (a : nat) (opts : list FromOption) (arrays : gmap nat (list T))
    : outcome (handle * gmap nat (list T)) :=
  it ← From (arrays !!! a) opts;
  if copySource (from_options opts)
  then let b := fresh (dom arrays) in Ok (Handle b it, <[b := source it]> arrays)
  else Ok (Handle a it, arrays).

(** [s[i] = v] by the caller, for a slice [s] over the array [a]. *)
Definition store_elem (a i : nat) (v : T) (arrays : gmap nat (list T))
    : outcome (gmap nat (list T)) :=
  if decide (i < length (arrays !!! a))
  then Ok (<[a := <[i := v]> (arrays !!! a)]> arrays)
  else Panic IndexOutOfRange.

(** The cursor as its methods find it. *)
Definition current (hd : handle) (arrays : gmap nat (list T)) : iter T :=
  set_source (arrays !!! backing hd) (cursor hd).

(** ** Relations between cursors *)

(** Two cursors that differ at most in the function [nextFunc] points to,
    with both mutexes free. *)
Definition same_but_nextFunc it1 it2 : Prop :=
  mu it1 = false ∧ mu it2 = false ∧
  nextIndex it1 = nextIndex it2 ∧ source it1 = source it2 ∧
  operations it1 = operations it2.

(** A cursor that has yielded all its elements. *)
Definition exhausted it : Prop := nextIndex it = length (source it).


(** Operations that were all registered by [Filter], as those of [Unique]
    are. *)
Definition filters_only (ops : list (maybe T → M T (maybe T))) : Prop :=
  Forall (fun op => ∃ fn, op = filter_op fn) ops.

(** ** Goroutines that share a thread-safe cursor *)

(** Where a goroutine is inside [synchronizedNext]: outside of it; with the
    mutex, before the test of [next]; after the test [it.nextIndex >=
    len(it.source)] came out false; with the value of
    [it.source[it.nextIndex]], before the deferred [it.nextIndex++]; and with
    the results of [next], before the deferred [it.mu.Unlock()]. *)
Inductive phase : Type :=
  | Outside
  | Holding
  | Checked
  | Loaded (v : T)
  | Leaving (v : T) (b : bool).

(** A goroutine that calls [Next] again and again, as those of
    [Test_ThreadSafe] do, with what its calls have returned so far. *)
Record caller : Type := Caller {
  at_phase : phase;
  returned : list (T * bool);
}.

(** One step of one goroutine.  [Lock] on a held mutex blocks: the goroutine
    has no step until the mutex is free. *)
Inductive sync_step : iter T * list caller → iter T * list caller → Prop :=
  | sync_lock it it' cs i got :
      cs !! i = Some (Caller Outside got) →
      nextFunc it = synchronizedNext_fn →
      Lock it = Ok it' →
      sync_step (it, cs) (it', <[i := Caller Holding got]> cs)
  | sync_at_end it cs i got :
      cs !! i = Some (Caller Holding got) →
      length (source it) ≤ nextIndex it →
      sync_step (it, cs) (it, <[i := Caller (Leaving zero false) got]> cs)
  | sync_not_at_end it cs i got :
      cs !! i = Some (Caller Holding got) →
      nextIndex it < length (source it) →
      sync_step (it, cs) (it, <[i := Caller Checked got]> cs)
  | sync_load it cs i got v :
      cs !! i = Some (Caller Checked got) →
      source it !! nextIndex it = Some v →
      sync_step (it, cs) (it, <[i := Caller (Loaded v) got]> cs)
  | sync_increment it cs i got v :
      cs !! i = Some (Caller (Loaded v) got) →
      sync_step (it, cs)
        (set_nextIndex (nextIndex it + 1) it, <[i := Caller (Leaving v true) got]> cs)
  | sync_unlock it cs i got v b :
      cs !! i = Some (Caller (Leaving v b) got) →
      sync_step (it, cs) (Unlock it, <[i := Caller Outside (got ++ [(v, b)])]> cs).

(** The elements a goroutine has taken: those its calls returned with [true],
    and the one it is about to return. *)
Definition yielded (c : caller) : list T :=
  omap (fun r => if r.2 : bool then Some r.1 else None) (returned c) ++
  match at_phase c with
  | Leaving v true => [v]
  | _ => []
  end.

Definition inside (c : caller) : Prop := at_phase c ≠ Outside.

(** What holds of the cursor and the goroutines at every moment. *)
Definition sync_inv (src : list T) (it : iter T) (cs : list caller) : Prop :=
  source it = src ∧
  nextFunc it = synchronizedNext_fn ∧
  nextIndex it ≤ length src ∧
  concat (yielded <$> cs) ≡ₚ take (nextIndex it) src ∧
  (∀ c, c ∈ cs → yielded c `sublist_of` take (nextIndex it) src) ∧
  ((mu it = false ∧ ∀ c, c ∈ cs → at_phase c = Outside) ∨
   (mu it = true ∧ ∃ i c,
      cs !! i = Some c ∧ inside c ∧
      (∀ j c', cs !! j = Some c' → inside c' → j = i) ∧
      match at_phase c with
      | Checked => nextIndex it < length src
      | Loaded v => src !! nextIndex it = Some v
      | _ => True
      end)).

End Further.

Arguments step T : clear implicits.
Arguments handle T {_}.
Arguments phase T : clear implicits.
Arguments caller T : clear implicits.

(** * Properties *)

(** ** Raw stepping *)

Section Stepping.
Context {RT : Runtime} {T : Type} `{GoType T}.
Implicit Types (it : iter T) (h : heap T).

Lemma set_nextIndex_id it : set_nextIndex (nextIndex it) it = it.
Proof. by destruct it. Qed.

Lemma set_nextIndex_twice n m it :
  set_nextIndex n (set_nextIndex m it) = set_nextIndex n it.
Proof. done. Qed.

Lemma Unlock_Lock it : mu it = false → Unlock (set_mu true it) = it.
Proof. destruct it; simpl; intros ->; done. Qed.

Lemma next_lt it v :
  source it !! nextIndex it = Some v →
  next it = Ok (v, true, set_nextIndex (nextIndex it + 1) it).
Proof.
  intros Hv. unfold next.
  apply lookup_lt_Some in Hv as Hlt.
  rewrite bool_decide_eq_false_2 by lia. by rewrite Hv.
Qed.

Lemma next_ge it :
  length (source it) ≤ nextIndex it → next it = Ok (zero, false, it).
Proof. intros Hge. unfold next. by rewrite bool_decide_eq_true_2. Qed.

(** With a free mutex, both values of [nextFunc] behave as [next]. *)
Lemma Next_next it : mu it = false → Next it = next it.
Proof.
  intros Hmu. unfold Next. destruct (nextFunc it) eqn:Hnf; [done|].
  unfold synchronizedNext, Lock. rewrite Hmu. simpl.
  destruct (decide (length (source it) ≤ nextIndex it)) as [Hge|Hlt].
  - rewrite (next_ge it Hge), (next_ge (set_mu true it)) by done.
    simpl. by rewrite Unlock_Lock.
  - destruct (lookup_lt_is_Some_2 (source it) (nextIndex it)) as [v Hv]; [lia|].
    rewrite (next_lt it v Hv), (next_lt (set_mu true it) v) by done.
    simpl. destruct it; simpl in *; by subst.
Qed.

(** [ForEach] hands the remaining raw elements to its callback, in order,
    and leaves the cursor at the end of the source; the bound on the loop
    is never reached. *)
Lemma ForEach_loop_spec {St : Type} (fn : T → St → outcome St) fuel it s :
  mu it = false →
  length (source it) - nextIndex it < fuel →
  ForEach_loop fuel fn it s =
    s' ← fold_outcome fn (drop (nextIndex it) (source it)) s;
    Ok (set_nextIndex (nextIndex it `max` length (source it)) it, s').
Proof.
  revert it s. induction fuel as [|fuel IH]; intros it s Hmu Hfuel; [lia|].
  simpl. rewrite Next_next by done.
  destruct (decide (length (source it) ≤ nextIndex it)) as [Hge|Hlt].
  - rewrite next_ge by done. simpl.
    rewrite drop_ge by done. simpl.
    rewrite Nat.max_l by done. by rewrite set_nextIndex_id.
  - destruct (lookup_lt_is_Some_2 (source it) (nextIndex it)) as [v Hv]; [lia|].
    rewrite (next_lt it v Hv). simpl.
    rewrite (drop_S _ _ _ Hv). simpl.
    destruct (fn v s) as [s'| |]; simpl; [|done..].
    rewrite IH; simpl; [|done|lia].
    rewrite Nat.add_1_r, set_nextIndex_twice.
    by rewrite (Nat.max_r (S _)), (Nat.max_r (nextIndex it)) by lia.
Qed.

Lemma ForEach_spec {St : Type} (fn : T → St → outcome St) it s :
  valid it →
  ForEach fn it s =
    s' ← fold_outcome fn (drop (nextIndex it) (source it)) s;
    Ok (set_nextIndex (length (source it)) it, s').
Proof.
  intros [Hmu Hle]. unfold ForEach. rewrite ForEach_loop_spec by (done || lia).
  by rewrite Nat.max_r.
Qed.

(** More iterations than [ForEach] allows for change nothing: the bound is
    not what ends the loop. *)
Lemma ForEach_loop_enough {St : Type} (fn : T → St → outcome St) fuel it s :
  mu it = false →
  length (source it) - nextIndex it < fuel →
  ForEach_loop fuel fn it s = ForEach fn it s.
Proof.
  intros Hmu Hfuel. unfold ForEach.
  rewrite !ForEach_loop_spec by (done || lia). done.
Qed.

Lemma ForEach_terminates {St : Type} (fn : T → St → outcome St) it s :
  mu it = false →
  (∀ v s', fn v s' ≠ Timeout) →
  ForEach fn it s ≠ Timeout.
Proof.
  intros Hmu Hfn. unfold ForEach. rewrite ForEach_loop_spec by (done || lia).
  generalize (drop (nextIndex it) (source it)). intros l. revert s.
  induction l as [|x l IH]; intros s; simpl; [done|].
  specialize (Hfn x s). destruct (fn x s) as [s'| |]; simpl; [|done..].
  apply IH.
Qed.

Lemma Next_valid it :
  valid it → ∃ v b it', Next it = Ok (v, b, it') ∧ valid it'.
Proof.
  intros [Hmu Hle]. rewrite Next_next by done.
  destruct (decide (length (source it) ≤ nextIndex it)) as [Hge|Hlt].
  - rewrite next_ge by done. by eexists _, _, _.
  - destruct (lookup_lt_is_Some_2 (source it) (nextIndex it)) as [v Hv]; [lia|].
    rewrite (next_lt it v Hv). eexists _, _, _. split; [done|].
    split; simpl; [done|lia].
Qed.

End Stepping.

(** ** The pipeline *)

Section Pipeline.
Context {RT : Runtime} {T : Type} `{GoType T}.
Implicit Types (it : iter T) (h : heap T) (ops : list (maybe T → M T (maybe T))).

Lemma run_operations_through_steps ops v h :
  through_steps ops v h =
    '(m, h') ← run_operations ops (Maybe true v) h;
    Ok (if ok m then Some (val m) else None, h').
Proof.
  revert v h. induction ops as [|op ops IH]; intros v h; simpl; [done|].
  destruct (op (Maybe true v) h) as [[[[] w] h1]| |]; simpl; done.
Qed.

Lemma fold_collect_fn ops l acc mb h :
  ('(r, _, h1) ← fold_outcome (collect_fn ops) l (acc, mb, h); Ok (r, h1)) =
  ('(res, h2) ← collect_elements ops l h; Ok (acc ++ res, h2)).
Proof.
  revert acc mb h. induction l as [|x l IH]; intros acc mb h; simpl.
  { by rewrite app_nil_r. }
  rewrite run_operations_through_steps.
  destruct (run_operations ops (Maybe true x) h) as [[[b w] h1]| |];
    simpl; try done.
  rewrite IH.
  destruct (collect_elements ops l h1) as [[res h2]| |]; simpl; try done.
  destruct b; simpl; [|done]. by rewrite <- app_assoc.
Qed.

Lemma Collect_collect_elements it h :
  valid it →
  Collect it h =
    '(res, h') ← collect_elements (elems (operations it))
                   (drop (nextIndex it) (source it)) h;
    Ok (res, set_nextIndex (length (source it)) it, h').
Proof.
  intros Hv. unfold Collect. rewrite ForEach_spec by done.
  pose proof (fold_collect_fn (elems (operations it))
                (drop (nextIndex it) (source it)) [] (Maybe false zero) h) as Hf.
  destruct (fold_outcome _ _ _) as [[[r mb] h1]| |]; simpl in *;
    destruct (collect_elements _ _ _) as [[res h2]| |]; simpl in *;
    try done; by simplify_eq.
Qed.

Lemma collect_elements_no_steps l h : collect_elements [] l h = Ok (l, h).
Proof. induction l as [|x l IH]; simpl; [done|]. by rewrite IH. Qed.

Lemma valid_at_end it : valid it → valid (set_nextIndex (length (source it)) it).
Proof. intros [??]. split; simpl; [done|lia]. Qed.

Lemma valid_Reset it : valid it → valid (Reset it).
Proof. intros [??]. split; simpl; [done|lia]. Qed.

Lemma collect_elements_app ops l1 l2 h :
  collect_elements ops (l1 ++ l2) h =
    '(r1, h1) ← collect_elements ops l1 h;
    '(r2, h2) ← collect_elements ops l2 h1;
    Ok (r1 ++ r2, h2).
Proof.
  revert h. induction l1 as [|x l1 IH]; intros h; simpl.
  { by destruct (collect_elements ops l2 h) as [[??]| |]. }
  destruct (through_steps ops x h) as [[r h1]| |]; simpl; [|done..].
  rewrite IH.
  destruct (collect_elements ops l1 h1) as [[r1 h2]| |]; simpl; [|done..].
  destruct (collect_elements ops l2 h2) as [[r2 h3]| |]; simpl; [|done..].
  by destruct r.
Qed.

End Pipeline.

(** ** Claims on [Next] and [Collect] *)

(** C2: on a cursor whose mutex is free (sequential use), with either value of
    [nextFunc]: when the index is below [len(source)], [Next] returns the
    element at the index with [true] and increments the index; otherwise it
    returns the zero value with [false] and leaves the cursor as it is.  The
    registered operations play no part: [Next] does not touch the store, and
    replacing the operations changes nothing but the operations carried
    along. *)
Theorem Next_spec {T : Type} `{GoType T} (it : iter T) :
  mu it = false →
  (nextIndex it < length (source it) →
     ∃ v, source it !! nextIndex it = Some v ∧
          Next it = Ok (v, true, set_nextIndex (nextIndex it + 1) it)) ∧
  (length (source it) ≤ nextIndex it → Next it = Ok (zero, false, it)) ∧
  (∀ ops, Next (set_operations ops it) =
            '(v, b, it') ← Next it; Ok (v, b, set_operations ops it')).
Proof.
  intros Hmu. split_and!.
  - intros Hlt.
    destruct (lookup_lt_is_Some_2 (source it) (nextIndex it) Hlt) as [v Hv].
    exists v. split; [done|]. rewrite Next_next by done. by apply next_lt.
  - intros Hge. rewrite Next_next by done. by apply next_ge.
  - intros ops. rewrite !Next_next by done.
    destruct (decide (length (source it) ≤ nextIndex it)) as [Hge|Hlt].
    + by rewrite (next_ge it), (next_ge (set_operations ops it)).
    + destruct (lookup_lt_is_Some_2 (source it) (nextIndex it)) as [v Hv]; [lia|].
      by rewrite (next_lt it v), (next_lt (set_operations ops it) v).
Qed.

Lemma Next_spec_witness :
  mu ints_sync_it = false ∧
  Next ints_sync_it = Ok (3%Z, true, set_nextIndex 3 ints_sync_it).
Proof.
  split; [reflexivity|].
  destruct (Next_spec ints_sync_it eq_refl) as (Hlt & _ & _).
  destruct Hlt as (v & Hv & HNext); [simpl; lia|].
  injection Hv as <-. exact HNext.
Defined.

(** C1: on every valid cursor, [Collect] returns the remaining raw elements
    (from the index to the end), each started with the keep flag set and
    passed through the registered operations in registration order, cut short
    at the first operation that clears the flag, and kept with its final value
    when the flag survives; the output follows the order of the source (the
    output of a concatenation is the concatenation of the outputs); the index
    ends at [len(source)]; without operations the remaining raw elements come
    back unchanged; and a [Collect] right after a [Collect] returns the empty
    slice. *)
Theorem Collect_spec {T : Type} `{GoType T} (it : iter T) (h : heap T) :
  valid it →
  Collect it h =
    ('(res, h') ← collect_elements (elems (operations it))
                    (drop (nextIndex it) (source it)) h;
     Ok (res, set_nextIndex (length (source it)) it, h')) ∧
  (∀ l1 l2 h0,
     collect_elements (elems (operations it)) (l1 ++ l2) h0 =
       '(r1, h1) ← collect_elements (elems (operations it)) l1 h0;
       '(r2, h2) ← collect_elements (elems (operations it)) l2 h1;
       Ok (r1 ++ r2, h2)) ∧
  (elems (operations it) = [] →
     Collect it h =
       Ok (drop (nextIndex it) (source it),
           set_nextIndex (length (source it)) it, h)) ∧
  (∀ res it' h',
     Collect it h = Ok (res, it', h') →
     nextIndex it' = length (source it') ∧
     Collect it' h' = Ok ([], it', h')).
Proof.
  intros Hv. split_and!.
  - by apply Collect_collect_elements.
  - intros. apply collect_elements_app.
  - intros Hops. rewrite Collect_collect_elements by done.
    by rewrite Hops, collect_elements_no_steps.
  - intros res it' h'. rewrite Collect_collect_elements by done.
    destruct (collect_elements _ _ _) as [[r h1]| |]; simpl; [|done..].
    intros [= <- <- <-]. split; [done|].
    rewrite Collect_collect_elements by by apply valid_at_end.
    simpl. by rewrite drop_all.
Qed.

Lemma Collect_spec_witness :
  valid ints_pipeline_it ∧
  Collect ints_pipeline_it ∅ =
    Ok ([2; 4; 6; 4; 2]%Z, set_nextIndex 5 ints_pipeline_it, ∅).
Proof.
  assert (Hv : valid ints_pipeline_it) by (split; [reflexivity|simpl; lia]).
  split; [exact Hv|].
  destruct (Collect_spec ints_pipeline_it ∅ Hv) as (-> & _).
  reflexivity.
Defined.

(** ** First occurrences *)

Section FirstOccurrences.
Context {A K K' : Type} `{EqK : EqDecision K} `{EqK' : EqDecision K'}
  `{CntK' : !Countable K'}.
Implicit Types (key : A → K) (kf : A → K') (l : list A).

(** The left-to-right computation with a set of keys yields the elements
    described by position, for any injective representation of the keys. *)
Lemma dedup_acc_new_occurrences key kf (inj : K → K') l :
  Inj (=) (=) inj →
  (∀ x, kf x = inj (key x)) →
  ∀ (S : gset K') (seen : list K),
    (∀ k, inj k ∈ S ↔ k ∈ seen) →
    dedup_acc kf S l = new_occurrences key seen l.
Proof.
  intros Hinj Hkey. unfold new_occurrences.
  induction l as [|x l IH]; intros S seen HS; [done|].
  cbn [dedup_acc imap omap].
  destruct (decide (kf x ∈ S)) as [Hin|Hnin].
  - rewrite (IH S seen HS). simpl. rewrite app_nil_r.
    rewrite Hkey, HS in Hin. rewrite decide_True by done. simpl.
    apply (f_equal (omap id)), imap_ext. intros i y _. simpl.
    apply decide_ext. rewrite !elem_of_app, elem_of_cons. intuition congruence.
  - rewrite (IH ({[kf x]} ∪ S) (seen ++ [key x])).
    + simpl. rewrite app_nil_r.
      rewrite Hkey, HS in Hnin. rewrite decide_False by done. simpl.
      f_equal. apply (f_equal (omap id)), imap_ext. intros i y _. simpl.
      by rewrite <- app_assoc.
    + intros k. rewrite elem_of_union, elem_of_singleton, elem_of_app, HS.
      rewrite list_elem_of_singleton, Hkey. split.
      * intros [Heq|?]; [apply Hinj in Heq|]; auto.
      * intros [? | ->]; auto.
Qed.

Lemma dedup_acc_seen kf (S : gset K') l :
  (∀ x, x ∈ l → kf x ∈ S) → dedup_acc kf S l = [].
Proof.
  induction l as [|x l IH]; intros Hall; [done|]. simpl.
  rewrite decide_True by (apply Hall; left).
  apply IH. intros y Hy. apply Hall. by right.
Qed.

Lemma elem_of_dedup_acc kf (S : gset K') l x :
  x ∈ dedup_acc kf S l → x ∈ l ∧ kf x ∉ S.
Proof.
  revert S. induction l as [|y l IH]; intros S; simpl.
  { by intros ?%elem_of_nil. }
  destruct (decide (kf y ∈ S)).
  - intros [??]%IH. split; [by right|done].
  - intros [->|[??]%IH]%elem_of_cons; [split; [by left|done]|].
    split; [by right|set_solver].
Qed.

Lemma dedup_acc_complete kf (S : gset K') l x :
  x ∈ l → kf x ∉ S → ∃ y, y ∈ dedup_acc kf S l ∧ kf y = kf x.
Proof.
  revert S. induction l as [|y l IH]; intros S; simpl.
  { by intros ?%elem_of_nil. }
  intros [->|Hx]%elem_of_cons Hn.
  - rewrite decide_False by done. exists y. split; [by left|done].
  - destruct (decide (kf y ∈ S)); [by apply IH|].
    destruct (decide (kf x = kf y)) as [Heq|Hne].
    + exists y. split; [by left|done].
    + destruct (IH ({[kf y]} ∪ S) Hx) as (z & Hz & Hkz); [set_solver|].
      exists z. split; [by right|done].
Qed.

Lemma NoDup_dedup_acc kf (S : gset K') l : NoDup (kf <$> dedup_acc kf S l).
Proof.
  revert S. induction l as [|y l IH]; intros S; simpl.
  { constructor. }
  destruct (decide (kf y ∈ S)); [apply IH|].
  rewrite fmap_cons. constructor; [|apply IH].
  intros (z & Hz & [_ Hn]%elem_of_dedup_acc)%list_elem_of_fmap.
  set_solver.
Qed.

Lemma dedup_acc_sublist kf (S : gset K') l : dedup_acc kf S l `sublist_of` l.
Proof.
  revert S. induction l as [|y l IH]; intros S; simpl; [done|].
  destruct (decide (kf y ∈ S)).
  - by apply sublist_cons.
  - by apply sublist_skip.
Qed.

End FirstOccurrences.

Lemma first_occurrences_dedup_acc `{Countable A} (l : list A) :
  first_occurrences l = dedup_acc id ∅ l.
Proof.
  symmetry. apply (dedup_acc_new_occurrences id id id).
  - by intros ???.
  - done.
  - intros k. split; [by intros ?%not_elem_of_empty|by intros ?%elem_of_nil].
Qed.

(** [first_occurrences] keeps one element of every value, in the order of
    the list. *)
Lemma first_occurrences_spec `{Countable A} (l : list A) :
  NoDup (first_occurrences l) ∧
  first_occurrences l `sublist_of` l ∧
  ∀ x, x ∈ first_occurrences l ↔ x ∈ l.
Proof.
  rewrite first_occurrences_dedup_acc.
  split_and!.
  - pose proof (NoDup_dedup_acc (@id A) ∅ l) as Hnd. by rewrite list_fmap_id in Hnd.
  - apply dedup_acc_sublist.
  - intros x. split.
    + by intros [? _]%elem_of_dedup_acc.
    + intros Hx. destruct (dedup_acc_complete (@id A) ∅ l x Hx) as (y & Hy & Heq);
        [set_solver|]. simpl in Heq. by subst.
Qed.

(** ** Construction and registration *)

Section Registration.
Context {RT : Runtime} {T : Type} `{GoType T}.
Implicit Types (it : iter T) (h : heap T).

Lemma copy_make_zeroed (src : list T) : copy (make_zeroed (length src)) src = src.
Proof.
  unfold copy, make_zeroed. rewrite length_replicate.
  rewrite firstn_all, drop_ge by (by rewrite length_replicate).
  apply app_nil_r.
Qed.

(** [From] fails exactly when [make] rejects the capacity. *)
Lemma From_Ok src opts :
  (0 ≤ bufferLen (from_options opts) ≤ maxFuncCap)%Z →
  From src opts =
    Ok (Iter false
          (if threadSafe (from_options opts) then synchronizedNext_fn else next_fn)
          0 src (Slice [] (bufferLen (from_options opts)))).
Proof.
  intros Hb. unfold From, makeslice. fold (from_options opts).
  rewrite bool_decide_eq_false_2 by lia. simpl.
  destruct (copySource _); [|done]. by rewrite copy_make_zeroed.
Qed.

Lemma From_Panic src opts :
  (bufferLen (from_options opts) < 0 ∨ maxFuncCap < bufferLen (from_options opts))%Z →
  From src opts = Panic MakesliceCapOutOfRange.
Proof.
  intros Hb. unfold From, makeslice. fold (from_options opts).
  by rewrite bool_decide_eq_true_2 by lia.
Qed.

Lemma From_inv src opts it :
  From src opts = Ok it →
  valid it ∧ nextIndex it = 0 ∧ source it = src ∧ elems (operations it) = [].
Proof.
  destruct (decide (0 ≤ bufferLen (from_options opts) ≤ maxFuncCap)%Z) as [Hb|Hb].
  - rewrite From_Ok by done. intros [= <-].
    split_and!; [split; [done|simpl; lia]|done..].
  - rewrite From_Panic by lia. done.
Qed.

Lemma elems_append {A : Type} (s : slice A) (x : A) :
  elems (append s x) = elems s ++ [x].
Proof. unfold append. by case_bool_decide. Qed.

Lemma elems_Map fn it :
  elems (operations (Map fn it)) = elems (operations it) ++ [map_op fn].
Proof. apply elems_append. Qed.

Lemma elems_Filter fn it :
  elems (operations (Filter fn it)) = elems (operations it) ++ [filter_op fn].
Proof. apply elems_append. Qed.

Lemma valid_Map fn it : valid it → valid (Map fn it).
Proof. done. Qed.

Lemma valid_Filter fn it : valid it → valid (Filter fn it).
Proof. done. Qed.

(** The filter function [Unique] registers, and the map it allocates. *)
Lemma Unique_plain opts it h :
  deref (apply_opts opts (UniqueOptions false)) = false →
  Unique opts it h =
    Ok (Filter (unique_filterFn (fresh (dom h))) it, <[fresh (dom h) := ∅]> h).
Proof. intros Hd. unfold Unique, make_map. simpl. by rewrite Hd. Qed.

Lemma Unique_deref opts it h k :
  deref (apply_opts opts (UniqueOptions false)) = true →
  kindOfZero = Some k →
  Unique opts it h =
    Ok (Filter (if bool_decide (k = Ptr)
                then unique_derefFilterFn (fresh (dom h))
                else unique_filterFn (fresh (dom h))) it,
        <[fresh (dom h) := ∅]> h).
Proof. intros Hd Hk. unfold Unique, make_map. simpl. by rewrite Hd, Hk. Qed.

Lemma Unique_deref_nil_type opts it h :
  deref (apply_opts opts (UniqueOptions false)) = true →
  kindOfZero = None →
  Unique opts it h = Panic KindOnNilType.
Proof. intros Hd Hk. unfold Unique, make_map. simpl. by rewrite Hd, Hk. Qed.

Lemma unique_filterFn_seen_filter seen v h :
  hashable (toAny v) = true →
  unique_filterFn seen v h = seen_filter seen (toAny v) h.
Proof.
  intros Hh. unfold unique_filterFn, seen_filter, map_has, map_set.
  rewrite Hh. simpl. case_bool_decide; rewrite ?Hh.
  - by rewrite decide_True.
  - by rewrite decide_False.
Qed.

Lemma unique_filterFn_unhashable seen v h :
  hashable (toAny v) = false →
  unique_filterFn seen v h = Panic UnhashableKey.
Proof. intros Hh. unfold unique_filterFn, map_has. by rewrite Hh. Qed.

Lemma unique_derefFilterFn_seen_filter seen v k h :
  elemInterface v = Some k → hashable k = true →
  unique_derefFilterFn seen v h = seen_filter seen k h.
Proof.
  intros Hk Hh. unfold unique_derefFilterFn, seen_filter, map_has, map_set.
  rewrite Hk, Hh. simpl. case_bool_decide; rewrite ?Hh.
  - by rewrite decide_True.
  - by rewrite decide_False.
Qed.

Lemma unique_derefFilterFn_nil seen v h :
  elemInterface v = None →
  unique_derefFilterFn seen v h = Panic InterfaceOnZeroValue.
Proof. intros Hk. unfold unique_derefFilterFn. by rewrite Hk. Qed.

Lemma through_steps_filter (fn : T → M T bool) x h :
  through_steps [filter_op fn] x h =
    '(b, h') ← fn x h; Ok (if b : bool then Some x else None, h').
Proof.
  simpl. unfold filter_op. simpl.
  by destruct (fn x h) as [[[] h']| |].
Qed.

(** A single filter that records keys in the map [seen]: the kept elements
    are the new occurrences, and the map gains the keys of all elements. *)
Lemma collect_seen_filter seen (kf : T → any) fn l h (S : gset any) :
  (∀ x, x ∈ l → ∀ h', fn x h' = seen_filter seen (kf x) h') →
  h !! seen = Some S →
  collect_elements [filter_op fn] l h =
    Ok (dedup_acc kf S l, <[seen := S ∪ list_to_set (kf <$> l)]> h).
Proof.
  revert h S. induction l as [|x l IH]; intros h S Hfn Hseen.
  { simpl. rewrite union_empty_r_L. by rewrite insert_id. }
  cbn [collect_elements dedup_acc fmap list_fmap list_to_set foldr].
  rewrite through_steps_filter.
  rewrite Hfn by left. unfold seen_filter.
  rewrite (lookup_total_correct _ _ _ Hseen).
  destruct (decide (kf x ∈ S)) as [Hin|Hnin]; simpl.
  - rewrite (IH h S); [|intros; apply Hfn; by right|done]. simpl.
    f_equal. f_equal. f_equal. set_solver.
  - rewrite (IH _ ({[kf x]} ∪ S));
      [|intros; apply Hfn; by right|by rewrite lookup_insert_eq]. simpl.
    rewrite insert_insert_eq. f_equal. f_equal. f_equal. set_solver.
Qed.

End Registration.

(** ** Uniqueness *)

Section Uniqueness.
Context {RT : Runtime} {T : Type} `{GoType T}.
Implicit Types (it : iter T) (h : heap T).

(** Collecting through a single key-recording filter. *)
Lemma Collect_seen_filter seen (kf : T → any) fn it h (S : gset any) :
  valid it →
  elems (operations it) = [] →
  (∀ x, x ∈ drop (nextIndex it) (source it) →
        ∀ h', fn x h' = seen_filter seen (kf x) h') →
  h !! seen = Some S →
  Collect (Filter fn it) h =
    Ok (dedup_acc kf S (drop (nextIndex it) (source it)),
        set_nextIndex (length (source it)) (Filter fn it),
        <[seen := S ∪ list_to_set (kf <$> drop (nextIndex it) (source it))]> h).
Proof.
  intros Hv Hops Hfn Hseen.
  rewrite Collect_collect_elements by by apply valid_Filter.
  rewrite elems_Filter, Hops. simpl.
  by rewrite (collect_seen_filter seen kf fn _ h S) by auto.
Qed.

(** Two passes over a fresh cursor with one key-recording filter whose map is
    still empty: the first pass keeps the first occurrence of every key, the
    second pass, after [Reset], keeps nothing and changes nothing, and from
    then on the filter only lets through keys the first pass has not met. *)
Lemma seen_filter_passes {K : Type} `{EqDecision K} seen fn (kf : T → any)
    (key : T → K) (inj : K → any) it h :
  Inj (=) (=) inj →
  (∀ x, kf x = inj (key x)) →
  valid it → nextIndex it = 0 → elems (operations it) = [] →
  (∀ x, x ∈ source it → ∀ h', fn x h' = seen_filter seen (kf x) h') →
  h !! seen = Some ∅ →
  ∃ it2 h2,
    Collect (Filter fn it) h = Ok (new_occurrences key [] (source it), it2, h2) ∧
    nextIndex it2 = length (source it2) ∧
    Collect (Reset it2) h2 = Ok ([], it2, h2) ∧
    ∀ l, (∀ x, x ∈ l → ∀ h', fn x h' = seen_filter seen (kf x) h') →
         ∃ h3, collect_elements (elems (operations it2)) l h2 =
                 Ok (new_occurrences key (key <$> source it) l, h3).
Proof.
  intros Hinj Hkf Hv Hidx Hops Hfn Hseen.
  set (S := list_to_set (kf <$> source it) : gset any).
  assert (HS : ∀ k, inj k ∈ S ↔ k ∈ key <$> source it).
  { intros k. unfold S. rewrite elem_of_list_to_set, !list_elem_of_fmap. split.
    - intros (y & Hy & Hin). rewrite Hkf in Hy. apply Hinj in Hy. by exists y.
    - intros (y & -> & Hin). exists y. by rewrite Hkf. }
  exists (set_nextIndex (length (source it)) (Filter fn it)), (<[seen := S]> h).
  rewrite (Collect_seen_filter seen kf fn it h ∅); try done;
    [|by rewrite Hidx, drop_0].
  rewrite Hidx, drop_0, union_empty_l_L. fold S.
  split_and!.
  - do 3 f_equal. apply (dedup_acc_new_occurrences key kf inj); [done..|].
    intros k. split; [by intros ?%not_elem_of_empty|by intros ?%elem_of_nil].
  - done.
  - unfold Reset. rewrite set_nextIndex_twice.
    change (set_nextIndex 0 (Filter fn it)) with (Filter fn (set_nextIndex 0 it)).
    rewrite (Collect_seen_filter seen kf fn _ _ S);
      [|by apply valid_Reset|done|by rewrite drop_0|by rewrite lookup_insert_eq].
    simpl. rewrite drop_0. fold S.
    rewrite dedup_acc_seen.
    + by rewrite insert_insert_eq, union_idemp_L.
    + intros x Hx. rewrite Hkf. apply HS, list_elem_of_fmap. by exists x.
  - intros l Hl. eexists.
    change (elems (operations (set_nextIndex ?n ?i))) with (elems (operations i)).
    rewrite elems_Filter, Hops. simpl.
    rewrite (collect_seen_filter seen kf fn _ _ S);
      [|done|by rewrite lookup_insert_eq].
    do 2 f_equal. by apply (dedup_acc_new_occurrences key kf inj).
Qed.

(** The passes of a fresh cursor with [Unique()] on a comparable type. *)
Lemma Unique_passes `{!Comparable T} `{EqDecision T} src opts uopts it0 h0 :
  From src opts = Ok it0 →
  deref (apply_opts uopts (UniqueOptions false)) = false →
  ∃ it1 h1 it2 h2,
    Unique uopts it0 h0 = Ok (it1, h1) ∧
    Collect it1 h1 = Ok (first_occurrences src, it2, h2) ∧
    nextIndex it2 = length (source it2) ∧
    Collect (Reset it2) h2 = Ok ([], it2, h2) ∧
    ∀ l, ∃ h3,
      collect_elements (elems (operations it2)) l h2 =
        Ok (new_occurrences id src l, h3).
Proof.
  intros (Hv & Hidx & Hsrc & Hops)%From_inv Hd. subst src.
  rewrite Unique_plain by done.
  set (seen := fresh (dom h0)).
  assert (Hfn : ∀ x h', unique_filterFn seen x h' = seen_filter seen (toAny x) h').
  { intros x h'. apply unique_filterFn_seen_filter, comparable_hashable. }
  destruct (seen_filter_passes seen (unique_filterFn seen) toAny id toAny
              it0 (<[seen := ∅]> h0)) as (it2 & h2 & HC1 & Hend & HC2 & Hgen);
    [apply _|done..|by rewrite lookup_insert_eq|].
  exists (Filter (unique_filterFn seen) it0), (<[seen := ∅]> h0), it2, h2.
  split_and!; [done..|].
  intros l. destruct (Hgen l) as [h3 Hh3]; [done|].
  exists h3. by rewrite list_fmap_id in Hh3.
Qed.

End Uniqueness.





(** ** Reduction *)

(** C5: on every valid cursor, [Reduce] folds [fn] over the remaining raw
    elements, from the initial value and in source order, and leaves the
    index at [len(source)]; for a function without effects this is the left
    fold of the remaining elements.  The registered operations are not used:
    whatever they are, the result is the same. *)
Theorem Reduce_spec {T : Type} `{GoType T} (fn : T → T → M T T) (initial : T)
    (it : iter T) (h : heap T) :
  valid it →
  Reduce fn initial it h =
    ('(r, h') ← fold_outcome (fun v '(acc, h) => fn acc v h)
                  (drop (nextIndex it) (source it)) (initial, h);
     Ok (r, set_nextIndex (length (source it)) it, h')) ∧
  (∀ f : T → T → T,
     Reduce (pure_fn2 f) initial it h =
       Ok (foldl f initial (drop (nextIndex it) (source it)),
           set_nextIndex (length (source it)) it, h)) ∧
  (∀ ops,
     Reduce fn initial (set_operations ops it) h =
       '(r, it', h') ← Reduce fn initial it h;
       Ok (r, set_operations ops it', h')).
Proof.
  intros Hv.
  assert (Hred : ∀ g it', valid it' →
    Reduce g initial it' h =
      '(r, h') ← fold_outcome (fun v '(acc, h) => g acc v h)
                   (drop (nextIndex it') (source it')) (initial, h);
      Ok (r, set_nextIndex (length (source it')) it', h')).
  { intros g it' Hv'. unfold Reduce. rewrite ForEach_spec by done.
    by destruct (fold_outcome _ _ _) as [[r h']| |]. }
  split_and!.
  - by apply Hred.
  - intros f. rewrite Hred by done.
    generalize (drop (nextIndex it) (source it)) initial.
    intros l. induction l as [|x l IH]; intros acc; [done|].
    simpl. apply IH.
  - intros ops. rewrite !Hred by done. simpl.
    by destruct (fold_outcome _ _ _) as [[r h']| |].
Qed.

Lemma Reduce_spec_witness :
  valid ints_pipeline_it ∧
  Reduce (pure_fn2 Z.add) 0%Z ints_pipeline_it ∅ =
    Ok (9%Z, set_nextIndex 5 ints_pipeline_it, ∅).
Proof.
  assert (Hv : valid ints_pipeline_it) by (split; [reflexivity|simpl; lia]).
  split; [exact Hv|].
  destruct (Reduce_spec (pure_fn2 Z.add) 0%Z ints_pipeline_it ∅ Hv)
    as (_ & -> & _).
  reflexivity.
Defined.

(** The test of the package: the sum of 1..5 is 15, also with operations
    registered. *)
Example Reduce_sum :
  (it ← From [1; 2; 3; 4; 5]%Z [];
   Reduce (pure_fn2 Z.add) 0%Z
     (Filter (pure_fn even) (Map (pure_fn (fun x => x * 2)%Z) it)) ∅)
  ≫= (fun r => Ok r.1.1) = Ok 15%Z.
Proof. reflexivity. Qed.

(** ** Two filters in a row *)

Section Filters.
Context {RT : Runtime} {T : Type} `{GoType T}.
Implicit Types (it : iter T) (h : heap T) (ops : list (maybe T → M T (maybe T))).

Lemma through_steps_app ops1 ops2 v h :
  through_steps (ops1 ++ ops2) v h =
    '(r, h1) ← through_steps ops1 v h;
    match r with
    | Some y => through_steps ops2 y h1
    | None => Ok (None, h1)
    end.
Proof.
  revert v h. induction ops1 as [|op ops1 IH]; intros v h; simpl; [done|].
  destruct (op (Maybe true v) h) as [[[[] w] h1]| |]; simpl; [|done..].
  apply IH.
Qed.

Lemma collect_elements_ext ops ops' l h :
  (∀ v h', through_steps ops v h' = through_steps ops' v h') →
  collect_elements ops l h = collect_elements ops' l h.
Proof.
  intros Hext. revert h. induction l as [|x l IH]; intros h; simpl; [done|].
  rewrite Hext. destruct (through_steps ops' x h) as [[r h1]| |]; simpl; [|done..].
  by rewrite IH.
Qed.

Lemma through_steps_two_filters (p1 p2 : T → M T bool) v h :
  through_steps [filter_op p1; filter_op p2] v h =
  through_steps [filter_op (and_fn p1 p2)] v h.
Proof.
  simpl. unfold filter_op, and_fn. simpl.
  destruct (p1 v h) as [[[] h1]| |]; simpl; [|done..].
  by destruct (p2 v h1) as [[[] h2]| |].
Qed.

Lemma collect_elements_pure_filter (p : T → bool) l h :
  collect_elements [filter_op (pure_fn p)] l h = Ok (List.filter p l, h).
Proof.
  revert h. induction l as [|x l IH]; intros h; [done|].
  cbn [collect_elements]. rewrite through_steps_filter.
  change (pure_fn p x h) with (Ok (p x, h) : outcome (bool * heap T)).
  cbn [mbind outcome_bind]. rewrite IH. cbn [mbind outcome_bind filter].
  simpl. by destruct (p x).
Qed.

Lemma and_fn_pure (p1 p2 : T → bool) x h :
  and_fn (pure_fn p1) (pure_fn p2) x h = pure_fn (fun x => p1 x && p2 x) x h.
Proof. unfold and_fn, pure_fn. simpl. by destruct (p1 x). Qed.

End Filters.

(** C6: on every valid cursor, whatever is already registered, collecting
    after [Filter(p1).Filter(p2)] gives what collecting after a single
    [Filter] with [p1(x) && p2(x)] gives: the same slice, the same final
    index and the same effects; in particular for predicates without effects,
    where on a cursor without other operations both give the remaining
    elements that satisfy both predicates. *)
Theorem Filter_Filter_conjunction {RT : Runtime} {T : Type} `{GoType T}
    (it : iter T) (h : heap T) :
  valid it →
  (∀ p1 p2 : T → M T bool,
     collected (Collect (Filter p2 (Filter p1 it)) h) =
     collected (Collect (Filter (and_fn p1 p2) it) h)) ∧
  (∀ p1 p2 : T → bool,
     collected (Collect (Filter (pure_fn p2) (Filter (pure_fn p1) it)) h) =
     collected (Collect (Filter (pure_fn (fun x => p1 x && p2 x)) it) h)) ∧
  (∀ p1 p2 : T → bool,
     elems (operations it) = [] →
     collected (Collect (Filter (pure_fn p2) (Filter (pure_fn p1) it)) h) =
       Ok (List.filter (fun x => p1 x && p2 x) (drop (nextIndex it) (source it)),
           length (source it), h)).
Proof.
  intros Hv.
  assert (Hgen : ∀ p1 p2 : T → M T bool,
     collected (Collect (Filter p2 (Filter p1 it)) h) =
     collected (Collect (Filter (and_fn p1 p2) it) h)).
  { intros p1 p2. unfold collected.
    rewrite !Collect_collect_elements by done.
    rewrite !elems_Filter, <- app_assoc. simpl.
    rewrite (collect_elements_ext _ (elems (operations it) ++ [filter_op (and_fn p1 p2)])).
    - by destruct (collect_elements _ _ _) as [[r h']| |].
    - intros v h'. rewrite !through_steps_app.
      destruct (through_steps (elems (operations it)) v h') as [[[y|] h1]| |];
        simpl; try done.
      apply through_steps_two_filters. }
  assert (Hpure : ∀ p1 p2 : T → bool,
     collected (Collect (Filter (pure_fn p2) (Filter (pure_fn p1) it)) h) =
     collected (Collect (Filter (pure_fn (fun x => p1 x && p2 x)) it) h)).
  { intros p1 p2. rewrite Hgen. unfold collected.
    rewrite !Collect_collect_elements by done.
    rewrite !elems_Filter.
    rewrite (collect_elements_ext _
               (elems (operations it) ++ [filter_op (pure_fn (fun x => p1 x && p2 x))])).
    - by destruct (collect_elements _ _ _) as [[r h']| |].
    - intros v h'. rewrite !through_steps_app.
      destruct (through_steps (elems (operations it)) v h') as [[[y|] h1]| |];
        simpl; try done.
      unfold filter_op. by rewrite and_fn_pure. }
  split_and!; [done..|].
  intros p1 p2 Hops. rewrite Hpure. unfold collected.
  rewrite Collect_collect_elements by done.
  rewrite elems_Filter, Hops. simpl.
  by rewrite collect_elements_pure_filter.
Qed.

Lemma Filter_Filter_conjunction_witness :
  valid ints_it ∧
  collected (Collect (Filter (pure_fn div3) (Filter (pure_fn even) ints_it)) ∅) =
  collected (Collect (Filter (pure_fn (fun x => even x && div3 x)) ints_it) ∅).
Proof.
  assert (Hv : valid ints_it) by (split; [reflexivity|simpl; lia]).
  split; [exact Hv|].
  destruct (Filter_Filter_conjunction ints_it ∅ Hv) as (_ & Hpure & _).
  exact (Hpure even div3).
Defined.

(** The test of the package: of 1..9 only 6 is even and divisible by 3. *)
Example Filter_Filter_six :
  (it ← From [1; 2; 3; 4; 5; 6; 7; 8; 9]%Z [];
   collected (Collect (Filter (pure_fn div3) (Filter (pure_fn even) it)) ∅))
  = Ok ([6]%Z, 9, ∅).
Proof. reflexivity. Qed.

(** ** Uniqueness of pointers *)

Section Pointers.
Context {RT : Runtime} {V : Type} `{GoType V} `{!Comparable V} `{EqDecision V} (mem : nat → V).

#[local] Instance ptr_inst : GoType ptr := ptr_GoType mem.

#[local] Instance ptr_Comparable : Comparable ptr.
Proof. split; [done|]. intros p q. simpl. congruence. Qed.

Lemma Unique_deref_passes (src : list ptr) opts (it0 : iter ptr) (h0 : heap ptr) :
  From src opts = Ok it0 →
  Forall is_Some src →
  ∃ it1 h1 it2 h2,
    Unique [DerefPointers true] it0 h0 = Ok (it1, h1) ∧
    Collect it1 h1 = Ok (new_occurrences (fmap mem) [] src, it2, h2) ∧
    Collect (Reset it2) h2 = Ok ([], it2, h2).
Proof.
  intros (Hv & Hidx & Hsrc & Hops)%From_inv Hnn. subst src.
  rewrite (Unique_deref _ _ _ Ptr) by done.
  rewrite bool_decide_eq_true_2 by done.
  set (seen := fresh (dom h0)).
  destruct (seen_filter_passes seen (unique_derefFilterFn seen) (pointee_key mem)
              (fmap mem) (pointee_inj mem) it0 (<[seen := ∅]> h0))
    as (it2 & h2 & HC1 & Hend & HC2 & _); try done.
  - intros [v|] [w|] Heq; simpl in Heq; try done.
    f_equal. injection Heq as Heq. by apply (inj toAny).
  - by intros [a|].
  - intros x Hx h'. rewrite Forall_forall in Hnn.
    destruct (Hnn x Hx) as [a ->].
    apply (unique_derefFilterFn_seen_filter (H := ptr_inst)); [done|].
    simpl. apply comparable_hashable.
  - by rewrite lookup_insert_eq.
  - by eexists _, _, it2, h2.
Qed.

(** C7, as far as it holds: over any memory with comparable pointees, for a
    source of non-nil pointers [Unique(DerefPointers(true))] keeps the first
    pointer to every distinct pointee, so of two different pointers to equal
    pointees only the first is kept; plain [Unique()] keeps the first
    occurrence of every distinct pointer, so both are kept; and for an element
    type whose zero value has a kind other than [reflect.Ptr] the option
    changes nothing. *)
Theorem Unique_DerefPointers (src : list ptr) (opts : list FromOption)
    (it0 : iter ptr) (h0 : heap ptr) :
  From src opts = Ok it0 →
  (Forall is_Some src →
     ∃ it1 h1 it2 h2,
       Unique [DerefPointers true] it0 h0 = Ok (it1, h1) ∧
       Collect it1 h1 = Ok (new_occurrences (fmap mem) [] src, it2, h2)) ∧
  (∃ it1 h1 it2 h2,
     Unique [] it0 h0 = Ok (it1, h1) ∧
     Collect it1 h1 = Ok (first_occurrences src, it2, h2)) ∧
  (∀ a b : nat, a ≠ b → mem a = mem b →
     new_occurrences (fmap mem) [] [Some a; Some b] = [Some a] ∧
     first_occurrences [Some a; Some b] = [Some a; Some b]) ∧
  (∀ (T : Type) (HT : GoType T) (it : iter T) (h : heap T),
     kindOfZero (T := T) = Some OtherKind →
     Unique [DerefPointers true] it h = Unique [] it h).
Proof.
  intros HF. split_and!.
  - intros Hnn.
    destruct (Unique_deref_passes src opts it0 h0 HF Hnn)
      as (it1 & h1 & it2 & h2 & HU & HC & _).
    by exists it1, h1, it2, h2.
  - destruct (Unique_passes src opts [] it0 h0 HF eq_refl)
      as (it1 & h1 & it2 & h2 & HU & HC & _).
    by exists it1, h1, it2, h2.
  - intros a b Hab Hmem. unfold first_occurrences, new_occurrences. simpl.
    rewrite Hmem.
    repeat case_decide; simpl; try done; exfalso;
      repeat match goal with
        | Hn : ¬ _ |- _ => apply Hn; by left
        | Hi : _ ∈ [] |- _ => by apply elem_of_nil in Hi
        | Hi : _ ∈ [_] |- _ => apply list_elem_of_singleton in Hi; congruence
        end.
  - intros T HT it h Hk.
    by rewrite (Unique_deref _ _ _ OtherKind), Unique_plain.
Qed.

End Pointers.

Lemma Unique_DerefPointers_witness :
  From (H := ptr_GoType ints_mem) [Some 0; Some 1; Some 2; Some 0] [] = Ok ptrs_it ∧
  ∃ it1 h1 it2 h2,
    Unique (H := ptr_GoType ints_mem) [DerefPointers true] ptrs_it ∅ = Ok (it1, h1) ∧
    Collect it1 h1 = Ok ([Some 0; Some 2], it2, h2).
Proof.
  split; [reflexivity|].
  destruct (Unique_DerefPointers (RT := runtime64) ints_mem
              [Some 0; Some 1; Some 2; Some 0] [] ptrs_it ∅ eq_refl)
    as (Hderef & _).
  apply Hderef. repeat constructor; by eexists.
Defined.

(** C7 as stated fails on a source that holds a nil pointer: with
    [DerefPointers(true)] the collection panics in [reflect] instead of
    returning the deduplicated slice. *)
Lemma Unique_DerefPointers_nil_panics :
  From (H := ptr_GoType ints_mem) [Some 0; None] [] = Ok ptrs_nil_it ∧
  (it ← From (H := ptr_GoType ints_mem) [Some 0; None] [];
   '(it, h) ← Unique [DerefPointers true] it ∅;
   Collect it h) = Panic InterfaceOnZeroValue ∧
  ¬ ∃ it1 h1 it2 h2,
      Unique (H := ptr_GoType ints_mem) [DerefPointers true] ptrs_nil_it ∅ = Ok (it1, h1) ∧
      Collect it1 h1 =
        Ok (new_occurrences (fmap ints_mem) [] [Some 0; None], it2, h2).
Proof.
  split_and!; [reflexivity..|].
  intros (it1 & h1 & it2 & h2 & HU & HC).
  injection HU as <- <-. discriminate HC.
Qed.

(** ** Delivery through channels *)

Section Channels.
Context {RT : Runtime} {T : Type} `{GoType T}.
Implicit Types (it : iter T) (d : delivery T) (src rest : list T).

Lemma fold_sends (l : list T) (acc : list (chanOp T)) :
  fold_outcome (fun v ops => Ok (ops ++ [Send v])) l acc = Ok (acc ++ (Send <$> l)).
Proof.
  revert acc. induction l as [|x l IH]; intros acc; simpl.
  { by rewrite app_nil_r. }
  rewrite IH. by rewrite <- app_assoc.
Qed.

(** The goroutine of [IntoChannel] sends the remaining raw elements in order
    and closes the channel afterwards if it was asked to. *)
Lemma IntoChannel_ops opts it :
  valid it →
  IntoChannel opts it =
    Ok (set_nextIndex (length (source it)) it,
        (Send <$> drop (nextIndex it) (source it)) ++
        (if closeChannel (apply_opts opts (IntoChannelOptions false))
         then [Close] else [])).
Proof.
  intros Hv. unfold IntoChannel. rewrite ForEach_spec by done.
  rewrite fold_sends. simpl.
  destruct (closeChannel _); [done|]. by rewrite app_nil_r.
Qed.

Lemma sends_fmap_Send rest : sends (T := T) (Send <$> rest) = rest.
Proof.
  induction rest as [|x rest IH]; [done|].
  rewrite fmap_cons. unfold sends in *. cbn [omap list_omap]. by rewrite IH.
Qed.

(** While the producer only sends, the channel stays open and no value is
    lost, duplicated or reordered. *)
Lemma delivery_open_inv buf0 cap src d :
  rtc delivery_step (Delivery (Chan buf0 cap false) (Send <$> src) []) d →
  ∃ rest,
    d_todo d = Send <$> rest ∧
    chan_closed (d_chan d) = false ∧
    chan_cap (d_chan d) = cap ∧
    d_received d ++ chan_buf (d_chan d) ++ rest = buf0 ++ src.
Proof.
  revert d. apply rtc_ind_r.
  { by exists src. }
  intros d d' Hrtc Hstep (rest & Htodo & Hcl & Hcap & Hall).
  inversion Hstep; subst; simpl in *.
  - destruct rest as [|x rest]; simplify_eq/=. exists rest.
    split_and!; try done. by rewrite <- Hall, <- !app_assoc.
  - destruct rest as [|x rest]; simplify_eq/=. exists rest.
    split_and!; try done. by rewrite <- Hall, <- !app_assoc.
  - by destruct rest.
  - exists rest. split_and!; try done. by rewrite <- Hall, <- !app_assoc.
Qed.

(** With a final close: the channel is closed exactly when the producer is
    done. *)
Lemma delivery_close_inv cap src d :
  rtc delivery_step (Delivery (Chan [] cap false) ((Send <$> src) ++ [Close]) []) d →
  chan_cap (d_chan d) = cap ∧
  ((∃ rest,
      d_todo d = (Send <$> rest) ++ [Close] ∧
      chan_closed (d_chan d) = false ∧
      d_received d ++ chan_buf (d_chan d) ++ rest = src) ∨
   (d_todo d = [] ∧
    chan_closed (d_chan d) = true ∧
    d_received d ++ chan_buf (d_chan d) = src)).
Proof.
  revert d. apply rtc_ind_r.
  { split; [done|]. left. by exists src. }
  intros d d' Hrtc Hstep [Hcap IH].
  inversion Hstep; subst; simpl in *; (split; [done|]).
  - destruct IH as [(rest & Htodo & Hcl & Hall)|(? & ? & ?)]; [|done].
    destruct rest as [|x rest]; simplify_eq/=. left. exists rest.
    split_and!; try done. by rewrite <- !app_assoc.
  - destruct IH as [(rest & Htodo & Hcl & Hall)|(? & ? & ?)]; [|done].
    destruct rest as [|x rest]; simplify_eq/=. left. exists rest.
    split_and!; try done. by rewrite <- !app_assoc.
  - destruct IH as [(rest & Htodo & Hcl & Hall)|(? & ? & ?)]; [|done].
    destruct rest as [|x rest]; simplify_eq/=. right.
    split_and!; try done. by rewrite app_nil_r.
  - destruct IH as [(rest & Htodo & Hcl & Hall)|(Htodo & Hcl & Hall)].
    + left. exists rest. split_and!; try done.
      by rewrite <- Hall, <- !app_assoc.
    + right. split_and!; try done. by rewrite <- Hall, <- !app_assoc.
Qed.

End Channels.

(** C8: for a valid cursor at index 0, [Channel()] makes a channel of
    capacity [len(source)] and starts a goroutine that sends the raw source
    elements in order and then closes the channel: the sender never has to
    wait, at every moment the values received, then the values queued, then
    the values still to be sent make up the source, and the channel is closed
    exactly when the sender is done.  [IntoChannel(ch)] without options sends
    the same elements in order into the caller's channel, which stays open;
    with [CloseChannel(b)] it closes the channel at the end exactly when [b]
    is true. *)
Theorem Channel_delivery {T : Type} `{GoType T} (it : iter T) :
  valid it → nextIndex it = 0 →
  ((Channel it).1 = Chan [] (length (source it)) false ∧
   (Channel it).2 it =
     Ok (set_nextIndex (length (source it)) it, (Send <$> source it) ++ [Close]) ∧
   ∀ d, rtc delivery_step
          (Delivery (Channel it).1 ((Send <$> source it) ++ [Close]) []) d →
        (d_todo d ≠ [] → producer_enabled d) ∧
        d_received d ++ chan_buf (d_chan d) ++ sends (d_todo d) = source it ∧
        (chan_closed (d_chan d) = true ↔ d_todo d = [])) ∧
  (IntoChannel [] it =
     Ok (set_nextIndex (length (source it)) it, Send <$> source it) ∧
   ∀ buf cap d,
     rtc delivery_step (Delivery (Chan buf cap false) (Send <$> source it) []) d →
     chan_closed (d_chan d) = false ∧
     d_received d ++ chan_buf (d_chan d) ++ sends (d_todo d) = buf ++ source it) ∧
  (∀ b : bool,
     IntoChannel [CloseChannel b] it =
       Ok (set_nextIndex (length (source it)) it,
           (Send <$> source it) ++ (if b then [Close] else []))).
Proof.
  intros Hv Hidx.
  assert (Hops : ∀ opts, IntoChannel opts it =
    Ok (set_nextIndex (length (source it)) it,
        (Send <$> source it) ++
        (if closeChannel (apply_opts opts (IntoChannelOptions false))
         then [Close] else []))).
  { intros opts. rewrite IntoChannel_ops by done. by rewrite Hidx, drop_0. }
  split_and!.
  - done.
  - simpl. by rewrite Hops.
  - intros d [Hcap [(rest & Htodo & Hcl & Hall)|(Htodo & Hcl & Hall)]]%delivery_close_inv.
    + split_and!.
      * intros _. unfold producer_enabled. rewrite Htodo.
        destruct rest as [|x rest]; simpl; [done|]. split; [done|].
        rewrite Hcap, <- Hall, !length_app. simpl. lia.
      * rewrite Htodo. unfold sends. rewrite omap_app. fold (sends (Send <$> rest)).
        rewrite sends_fmap_Send. simpl. by rewrite app_nil_r.
      * rewrite Hcl, Htodo. split; [done|]. by destruct rest.
    + split_and!; [done| |done].
      rewrite Htodo. simpl. by rewrite app_nil_r.
  - rewrite Hops. simpl. by rewrite app_nil_r.
  - intros buf cap d (rest & Htodo & Hcl & Hcap & Hall)%delivery_open_inv.
    split; [done|]. by rewrite Htodo, sends_fmap_Send.
  - intros b. by rewrite Hops.
Qed.

Lemma Channel_delivery_witness :
  valid ints_it ∧ nextIndex ints_it = 0 ∧
  (Channel ints_it).2 ints_it =
    Ok (set_nextIndex 5 ints_it,
        [Send 1; Send 2; Send 3; Send 2; Send 1; Close]%Z).
Proof.
  assert (Hv : valid ints_it) by (split; [reflexivity|simpl; lia]).
  split_and!; [exact Hv|reflexivity|].
  destruct (Channel_delivery ints_it Hv eq_refl) as ((_ & Htask & _) & _).
  exact Htask.
Defined.

(** ** The capacity of the operations slice *)

Lemma outcome_rel_bind {A B A' B' : Type} (R : A → B → Prop) (R' : A' → B' → Prop)
    (r1 : outcome A) (r2 : outcome B) (k1 : A → outcome A') (k2 : B → outcome B') :
  outcome_rel R r1 r2 →
  (∀ a b, R a b → outcome_rel R' (k1 a) (k2 b)) →
  outcome_rel R' (r1 ≫= k1) (r2 ≫= k2).
Proof.
  destruct r1 as [a|p|], r2 as [b|q|]; simpl; try done.
  intros HR Hk. by apply Hk.
Qed.

Lemma outcome_rel_eq {A : Type} (r1 r2 : outcome A) :
  outcome_rel eq r1 r2 → r1 = r2.
Proof. destruct r1, r2; simpl; try done; by intros ->. Qed.

Section Capacity.
Context {RT : Runtime} {T : Type} `{GoType T}.
Implicit Types (it : iter T) (h : heap T).

Local Infix "≈" := same_but_capacity (at level 70).

Lemma same_but_capacity_refl it : it ≈ it.
Proof. by repeat split. Qed.

Lemma same_but_capacity_inv it1 it2 :
  it1 ≈ it2 →
  ∃ m nf i s e c1 c2,
    it1 = Iter m nf i s (Slice e c1) ∧ it2 = Iter m nf i s (Slice e c2).
Proof.
  destruct it1 as [m1 nf1 i1 s1 [e1 c1]], it2 as [m2 nf2 i2 s2 [e2 c2]].
  intros (? & ? & ? & ? & ?); simplify_eq/=. by eexists _, _, _, _, _, _, _.
Qed.

Lemma Next_capacity it1 it2 :
  it1 ≈ it2 →
  outcome_rel (fun r1 r2 => r1.1 = r2.1 ∧ r1.2 ≈ r2.2) (Next it1) (Next it2).
Proof.
  intros (m & nf & i & s & e & c1 & c2 & -> & ->)%same_but_capacity_inv.
  unfold Next, synchronizedNext, Lock, next. simpl.
  destruct nf, m; simpl; try done;
    case_bool_decide; simpl; try (by repeat split);
    destruct (s !! i); simpl; by repeat split.
Qed.

Lemma ForEach_capacity {St : Type} (fn : T → St → outcome St) it1 it2 s :
  it1 ≈ it2 →
  outcome_rel (fun r1 r2 => r1.1 ≈ r2.1 ∧ r1.2 = r2.2)
    (ForEach fn it1 s) (ForEach fn it2 s).
Proof.
  intros Heq. unfold ForEach.
  assert (length (source it1) - nextIndex it1 =
          length (source it2) - nextIndex it2) as ->.
  { by destruct Heq as (? & ? & -> & -> & ?). }
  generalize (S (length (source it2) - nextIndex it2)). intros fuel.
  revert it1 it2 s Heq.
  induction fuel as [|fuel IH]; intros it1 it2 s Heq; [done|]. simpl.
  eapply outcome_rel_bind; [by apply Next_capacity|].
  intros [[v1 b1] i1] [[v2 b2] i2] [[= -> ->] Hi]. simpl in *.
  destruct b2; simpl; [|done].
  destruct (fn v2 s) as [s'| |]; simpl; [|done..]. by apply IH.
Qed.

Lemma Map_capacity fn it1 it2 : it1 ≈ it2 → Map fn it1 ≈ Map fn it2.
Proof.
  intros (? & ? & ? & ? & He). repeat split; try done.
  by rewrite !elems_Map, He.
Qed.

Lemma Filter_capacity fn it1 it2 : it1 ≈ it2 → Filter fn it1 ≈ Filter fn it2.
Proof.
  intros (? & ? & ? & ? & He). repeat split; try done.
  by rewrite !elems_Filter, He.
Qed.

Lemma Reset_capacity it1 it2 : it1 ≈ it2 → Reset it1 ≈ Reset it2.
Proof. intros (? & ? & ? & ? & He). by repeat split. Qed.

Lemma Unique_capacity opts it1 it2 h :
  it1 ≈ it2 →
  outcome_rel (fun r1 r2 => r1.1 ≈ r2.1 ∧ r1.2 = r2.2)
    (Unique opts it1 h) (Unique opts it2 h).
Proof.
  intros Heq. unfold Unique, make_map. simpl.
  destruct (deref _); simpl.
  - destruct kindOfZero; simpl; [|done]. split; [|done]. by apply Filter_capacity.
  - split; [|done]. by apply Filter_capacity.
Qed.

Lemma Collect_capacity it1 it2 h :
  it1 ≈ it2 →
  outcome_rel (fun r1 r2 => r1.1.1 = r2.1.1 ∧ r1.1.2 ≈ r2.1.2 ∧ r1.2 = r2.2)
    (Collect it1 h) (Collect it2 h).
Proof.
  intros Heq. unfold Collect.
  assert (elems (operations it1) = elems (operations it2)) as ->.
  { by destruct Heq as (? & ? & ? & ? & ?). }
  eapply outcome_rel_bind; [by apply ForEach_capacity|].
  intros [i1 [[r1 m1] h1]] [i2 [[r2 m2] h2]] [Hi [= -> -> ->]]. by simpl.
Qed.

Lemma Reduce_capacity fn initial it1 it2 h :
  it1 ≈ it2 →
  outcome_rel (fun r1 r2 => r1.1.1 = r2.1.1 ∧ r1.1.2 ≈ r2.1.2 ∧ r1.2 = r2.2)
    (Reduce fn initial it1 h) (Reduce fn initial it2 h).
Proof.
  intros Heq. unfold Reduce.
  eapply outcome_rel_bind; [by apply ForEach_capacity|].
  intros [i1 [r1 h1]] [i2 [r2 h2]] [Hi [= -> ->]]. by simpl.
Qed.

Lemma IntoChannel_capacity opts it1 it2 :
  it1 ≈ it2 →
  outcome_rel (fun r1 r2 => r1.1 ≈ r2.1 ∧ r1.2 = r2.2)
    (IntoChannel opts it1) (IntoChannel opts it2).
Proof.
  intros Heq. unfold IntoChannel.
  eapply outcome_rel_bind; [by apply ForEach_capacity|].
  intros [i1 o1] [i2 o2] [Hi Ho]. simpl in *. by subst.
Qed.

Lemma CollectIntoChannel_capacity opts it1 it2 h :
  it1 ≈ it2 →
  outcome_rel (fun r1 r2 => r1.1.1 ≈ r2.1.1 ∧ r1.1.2 = r2.1.2 ∧ r1.2 = r2.2)
    (CollectIntoChannel opts it1 h) (CollectIntoChannel opts it2 h).
Proof.
  intros Heq. unfold CollectIntoChannel.
  eapply outcome_rel_bind; [by apply Collect_capacity|].
  intros [[r1 i1] h1] [[r2 i2] h2] (Hr & Hi & Hh). simpl in *. by subst.
Qed.

Lemma run_call_capacity c it1 it2 h :
  it1 ≈ it2 →
  outcome_rel (fun r1 r2 => r1.1.1 = r2.1.1 ∧ r1.1.2 ≈ r2.1.2 ∧ r1.2 = r2.2)
    (run_call c it1 h) (run_call c it2 h).
Proof.
  intros Heq. destruct c; simpl.
  - eapply outcome_rel_bind; [by apply Next_capacity|].
    intros [[v1 b1] i1] [[v2 b2] i2] [[= -> ->] Hi]. by simpl.
  - eapply outcome_rel_bind; [by apply ForEach_capacity|].
    intros [i1 h1] [i2 h2] [Hi Hh]. simpl in *. by subst.
  - split; [done|split; [|done]]. by apply Map_capacity.
  - split; [done|split; [|done]]. by apply Filter_capacity.
  - eapply outcome_rel_bind; [by apply Unique_capacity|].
    intros [i1 h1] [i2 h2] [Hi Hh]. simpl in *. by subst.
  - eapply outcome_rel_bind; [by apply Collect_capacity|].
    intros [[r1 i1] h1] [[r2 i2] h2] (Hr & Hi & Hh). simpl in *. by subst.
  - eapply outcome_rel_bind; [by apply IntoChannel_capacity|].
    intros [i1 o1] [i2 o2] [Hi Ho]. simpl in *. subst.
    destruct Heq as (? & ? & ? & -> & ?). by split_and!.
  - eapply outcome_rel_bind; [by apply IntoChannel_capacity|].
    intros [i1 o1] [i2 o2] [Hi Ho]. simpl in *. by subst.
  - eapply outcome_rel_bind; [by apply CollectIntoChannel_capacity|].
    intros [[i1 o1] h1] [[i2 o2] h2] (Hi & Ho & Hh). simpl in *. subst.
    destruct Heq as (? & ? & ? & -> & ?). by split_and!.
  - eapply outcome_rel_bind; [by apply CollectIntoChannel_capacity|].
    intros [[i1 o1] h1] [[i2 o2] h2] (Hi & Ho & Hh). simpl in *. by subst.
  - eapply outcome_rel_bind; [by apply Reduce_capacity|].
    intros [[r1 i1] h1] [[r2 i2] h2] (Hr & Hi & Hh). simpl in *. by subst.
  - split; [done|split; [|done]]. by apply Reset_capacity.
Qed.

Lemma run_calls_capacity cs it1 it2 h :
  it1 ≈ it2 →
  observations (run_calls cs it1 h) = observations (run_calls cs it2 h).
Proof.
  intros Heq. apply outcome_rel_eq. unfold observations.
  eapply (outcome_rel_bind
            (fun r1 r2 => r1.1.1 = r2.1.1 ∧ r1.1.2 ≈ r2.1.2 ∧ r1.2 = r2.2)).
  - revert it1 it2 h Heq. induction cs as [|c cs IH]; intros it1 it2 h Heq; simpl.
    { by split_and!. }
    eapply outcome_rel_bind; [by apply run_call_capacity|].
    intros [[o1 i1] h1] [[o2 i2] h2] (Ho & Hi & Hh). simpl in *. subst.
    eapply outcome_rel_bind; [by apply IH|].
    intros [[os1 j1] g1] [[os2 j2] g2] (Hos & Hj & Hg). simpl in *. by subst.
  - intros [[os1 j1] g1] [[os2 j2] g2] (Hos & Hj & Hg). simpl in *. by subst.
Qed.

Lemma from_options_BufferLen opts n :
  from_options (opts ++ [BufferLen n]) =
    FromOptions (copySource (from_options opts)) (threadSafe (from_options opts)) n.
Proof. unfold from_options, apply_opts. by rewrite foldl_app. Qed.

End Capacity.

(** C10, as far as it holds: for every hint that [make] accepts as a capacity
    (not negative, not beyond the limit of the runtime), on a runtime that
    accepts the default 64, construction succeeds as it does with the hint 64,
    the two cursors differ at most in the capacity of the operations slice,
    and every client, whatever it registers and evaluates, observes the same
    with both, whatever capacities [append] chooses; the same holds against
    the default options. *)
Theorem BufferLen_unobservable {RT : Runtime} {T : Type} `{GoType T}
    (src : list T) (opts : list FromOption) (n : Z) :
  (0 ≤ n ≤ maxFuncCap)%Z →
  (64 ≤ maxFuncCap)%Z →
  (∃ it1 it2,
     From src (opts ++ [BufferLen n]) = Ok it1 ∧
     From src (opts ++ [BufferLen 64]) = Ok it2 ∧
     same_but_capacity it1 it2) ∧
  (∀ cs h,
     observations (it ← From src (opts ++ [BufferLen n]); run_calls cs it h) =
     observations (it ← From src (opts ++ [BufferLen 64]); run_calls cs it h)) ∧
  (∀ cs h,
     observations (it ← From src [BufferLen n]; run_calls cs it h) =
     observations (it ← From src []; run_calls cs it h)).
Proof.
  intros Hn Hdef.
  assert (Hgen : ∀ opts',
    ∃ it1 it2,
      From src (opts' ++ [BufferLen n]) = Ok it1 ∧
      From src (opts' ++ [BufferLen 64]) = Ok it2 ∧
      same_but_capacity it1 it2).
  { intros opts'.
    rewrite !From_Ok by (rewrite from_options_BufferLen; simpl; lia).
    eexists _, _. split_and!; [done..|].
    rewrite !from_options_BufferLen. by repeat split. }
  split_and!.
  - apply Hgen.
  - intros cs h. destruct (Hgen opts) as (it1 & it2 & -> & -> & Heq). simpl.
    by apply run_calls_capacity.
  - intros cs h. destruct (Hgen []) as (it1 & it2 & HF1 & HF2 & Heq).
    simpl in HF1. rewrite HF1.
    change (From src []) with (From src ([] ++ [BufferLen 64])). rewrite HF2. simpl.
    by apply run_calls_capacity.
Qed.

Lemma BufferLen_unobservable_witness :
  (0 ≤ 32 ≤ maxFuncCap (Runtime := runtime64))%Z ∧
  (64 ≤ maxFuncCap (Runtime := runtime64))%Z ∧
  ∀ cs h,
    observations (it ← From [1; 2; 3]%Z [BufferLen 32]; run_calls cs it h) =
    observations (it ← From [1; 2; 3]%Z []; run_calls cs it h).
Proof.
  assert (Hn : (0 ≤ 32 ≤ maxFuncCap (Runtime := runtime64))%Z) by (simpl; lia).
  assert (Hdef : (64 ≤ maxFuncCap (Runtime := runtime64))%Z) by (simpl; lia).
  split; [exact Hn|split; [exact Hdef|]].
  destruct (BufferLen_unobservable (RT := runtime64) [1; 2; 3]%Z [] 32%Z Hn Hdef)
    as (_ & _ & Hobs).
  exact Hobs.
Defined.

(** C10 as stated fails for a negative hint: construction panics, while it
    succeeds with the default hint, and a client that calls [Next] sees the
    difference. *)
Lemma BufferLen_negative_observable :
  From [1]%Z [BufferLen (-1)] = Panic MakesliceCapOutOfRange ∧
  (∃ it, From [1]%Z [BufferLen 64] = Ok it) ∧
  observations (it ← From [1]%Z [BufferLen (-1)]; run_calls [CallNext] it ∅) ≠
  observations (it ← From [1]%Z [BufferLen 64]; run_calls [CallNext] it ∅).
Proof. split_and!; [reflexivity|by eexists|discriminate]. Qed.

(** ** Failures *)

Section Failures.
Context {RT : Runtime} {T : Type} `{GoType T}.
Implicit Types (it : iter T) (h : heap T).

Lemma no_library_failure_Ok {A : Type} (a : A) : no_library_failure (Ok a).
Proof. left. by exists a. Qed.

Lemma no_library_failure_bind {A B : Type} (r : outcome A) (k : A → outcome B) :
  no_library_failure r →
  (∀ a, no_library_failure (k a)) →
  no_library_failure (r ≫= k).
Proof. intros [[a ->]| ->] Hk; [apply Hk|by right]. Qed.

Lemma fold_outcome_safe {St : Type} (fn : T → St → outcome St) l s :
  (∀ v s', no_library_failure (fn v s')) →
  no_library_failure (fold_outcome fn l s).
Proof.
  intros Hfn. revert s. induction l as [|x l IH]; intros s; simpl.
  - apply no_library_failure_Ok.
  - by apply no_library_failure_bind.
Qed.

Lemma ForEach_safe {St : Type} (fn : T → St → outcome St) it s :
  valid it →
  (∀ v s', no_library_failure (fn v s')) →
  no_library_failure (ForEach fn it s).
Proof.
  intros Hv Hfn. rewrite ForEach_spec by done.
  apply no_library_failure_bind; [by apply fold_outcome_safe|].
  intros. apply no_library_failure_Ok.
Qed.

Lemma run_operations_safe ops mb h :
  Forall (fun op => ∀ m h', no_library_failure (op m h')) ops →
  no_library_failure (run_operations ops mb h).
Proof.
  intros Hops. revert mb h.
  induction Hops as [|op ops Hop Hops IH]; intros mb h; simpl.
  - apply no_library_failure_Ok.
  - apply no_library_failure_bind; [apply Hop|].
    intros [m h']. destruct (ok m); simpl; [apply IH|apply no_library_failure_Ok].
Qed.

Lemma Collect_safe it h :
  valid it → safe_operations it → no_library_failure (Collect it h).
Proof.
  intros Hv Hops. unfold Collect.
  apply no_library_failure_bind.
  - apply ForEach_safe; [done|]. intros v [[r mb] h']. unfold collect_fn.
    apply no_library_failure_bind; [by apply run_operations_safe|].
    intros [m h'']. apply no_library_failure_Ok.
  - intros [it' [[r mb] h']]. apply no_library_failure_Ok.
Qed.

Lemma Reduce_safe (fn : T → T → M T T) initial it h :
  valid it →
  (∀ a v h', no_library_failure (fn a v h')) →
  no_library_failure (Reduce fn initial it h).
Proof.
  intros Hv Hfn. unfold Reduce.
  apply no_library_failure_bind.
  - apply ForEach_safe; [done|]. intros v [r h']. apply Hfn.
  - intros [it' [r h']]. apply no_library_failure_Ok.
Qed.

Lemma Map_safe fn it :
  caller_fn fn → safe_operations it → safe_operations (Map fn it).
Proof.
  intros Hfn Hops. unfold safe_operations. rewrite elems_Map.
  apply Forall_app. split; [done|]. constructor; [|done].
  intros m h. unfold map_op.
  apply no_library_failure_bind; [apply Hfn|].
  intros [v h']. apply no_library_failure_Ok.
Qed.

Lemma Filter_safe fn it :
  caller_fn fn → safe_operations it → safe_operations (Filter fn it).
Proof.
  intros Hfn Hops. unfold safe_operations. rewrite elems_Filter.
  apply Forall_app. split; [done|]. constructor; [|done].
  intros m h. unfold filter_op.
  apply no_library_failure_bind; [apply Hfn|].
  intros [v h']. apply no_library_failure_Ok.
Qed.

Lemma seen_filter_safe seen k h : no_library_failure (seen_filter seen k h).
Proof. unfold seen_filter. case_decide; apply no_library_failure_Ok. Qed.

(** [Unique] on a type whose values can all be hashed, when it compares the
    values themselves. *)
Lemma Unique_safe opts it h :
  (∀ x : T, hashable (toAny x) = true) →
  deref (apply_opts opts (UniqueOptions false)) = false ∨
    kindOfZero (T := T) = Some OtherKind →
  valid it → safe_operations it →
  ∃ it' h', Unique opts it h = Ok (it', h') ∧ valid it' ∧ safe_operations it'.
Proof.
  intros Hhash Hmode Hv Hops.
  assert (Hfn : caller_fn (unique_filterFn (fresh (dom h)))).
  { intros x h'. rewrite unique_filterFn_seen_filter by done.
    apply seen_filter_safe. }
  destruct (deref (apply_opts opts (UniqueOptions false))) eqn:Hd.
  - destruct Hmode as [|Hk]; [done|].
    rewrite (Unique_deref _ _ _ OtherKind) by done.
    rewrite bool_decide_eq_false_2 by done.
    eexists _, _. split_and!; [done|by apply valid_Filter|by apply Filter_safe].
  - rewrite Unique_plain by done.
    eexists _, _. split_and!; [done|by apply valid_Filter|by apply Filter_safe].
Qed.

End Failures.

(** C9, as far as it holds.  [From] succeeds for every source, the empty one
    included, and every element type whenever the capacity hint is one that
    [make] accepts (not negative, not beyond the limit of the runtime), as
    the default 64 is on a runtime that can make 64 operations; the cursor it
    returns is valid and has no operations.  On a valid cursor [Next] always
    returns; [ForEach] and [Reduce] fail only with the panic of the caller's
    function; [Collect] fails only with the panic of a caller's function when
    the operations come from [Map] and [Filter] with the caller's functions
    and from [Unique] on an element type whose values can all be hashed, used
    without [DerefPointers] or on a type whose kind is not pointer; with
    [DerefPointers(true)] on pointers to comparable values, collecting a
    source of non-nil pointers succeeds. *)
Theorem library_failures {RT : Runtime} {T : Type} `{GoType T} :
  (∀ (src : list T) opts,
     (0 ≤ bufferLen (from_options opts) ≤ maxFuncCap)%Z →
     ∃ it, From src opts = Ok it ∧ valid it ∧ safe_operations it) ∧
  (∀ src : list T, (64 ≤ maxFuncCap)%Z → ∃ it, From src [] = Ok it) ∧
  (∀ it : iter T, valid it → ∃ v b it', Next it = Ok (v, b, it') ∧ valid it') ∧
  (∀ (St : Type) (fn : T → St → outcome St) (it : iter T) s,
     valid it → (∀ v s', no_library_failure (fn v s')) →
     no_library_failure (ForEach fn it s)) ∧
  (∀ (fn : T → T → M T T) initial (it : iter T) h,
     valid it → (∀ a v h', no_library_failure (fn a v h')) →
     no_library_failure (Reduce fn initial it h)) ∧
  (∀ (it : iter T) h,
     valid it → safe_operations it → no_library_failure (Collect it h)) ∧
  (∀ (fn : T → M T T) (it : iter T),
     caller_fn fn → safe_operations it → safe_operations (Map fn it)) ∧
  (∀ (fn : T → M T bool) (it : iter T),
     caller_fn fn → safe_operations it → safe_operations (Filter fn it)) ∧
  (∀ opts (it : iter T) h,
     (∀ x : T, hashable (toAny x) = true) →
     deref (apply_opts opts (UniqueOptions false)) = false ∨
       kindOfZero (T := T) = Some OtherKind →
     valid it → safe_operations it →
     ∃ it' h', Unique opts it h = Ok (it', h') ∧ valid it' ∧ safe_operations it') ∧
  (∀ (mem : nat → T) `{!Comparable T} `{EqDecision T} (src : list ptr) opts
      (it0 : @iter ptr (ptr_GoType mem)) h0,
     From src opts = Ok it0 → Forall is_Some src →
     ∃ it1 h1 r it2 h2,
       Unique [DerefPointers true] it0 h0 = Ok (it1, h1) ∧
       Collect it1 h1 = Ok (r, it2, h2)).
Proof.
  split_and!.
  - intros src opts Hb. rewrite From_Ok by done. eexists. split; [done|].
    split; [split; simpl; [done|lia]|]. constructor.
  - intros src Hdef. rewrite From_Ok by (simpl; lia). by eexists.
  - apply @Next_valid.
  - apply @ForEach_safe.
  - apply @Reduce_safe.
  - apply @Collect_safe.
  - apply @Map_safe.
  - apply @Filter_safe.
  - apply @Unique_safe.
  - intros mem ? ? src opts it0 h0 HF Hnn.
    destruct (Unique_deref_passes mem src opts it0 h0 HF Hnn)
      as (it1 & h1 & it2 & h2 & HU & HC & _).
    by eexists it1, h1, _, it2, h2.
Qed.

Lemma library_failures_witness :
  valid ints_pipeline_it ∧ safe_operations ints_pipeline_it ∧
  no_library_failure (Collect ints_pipeline_it ∅).
Proof.
  assert (Hv : valid ints_pipeline_it) by (split; [reflexivity|simpl; lia]).
  assert (Hs : safe_operations ints_pipeline_it).
  { apply Filter_safe; [intros x h; apply no_library_failure_Ok|].
    apply Map_safe; [intros x h; apply no_library_failure_Ok|]. constructor. }
  split_and!; [exact Hv|exact Hs|].
  destruct (library_failures (RT := runtime64) (T := Z))
    as (_ & _ & _ & _ & _ & HCollect & _).
  exact (HCollect ints_pipeline_it ∅ Hv Hs).
Defined.

(** C9 as stated fails at construction: with a negative capacity hint [From]
    panics in [make], for the empty source too. *)
Lemma From_negative_BufferLen_panics :
  From (T := Z) [] [BufferLen (-1)] = Panic MakesliceCapOutOfRange ∧
  ¬ no_library_failure (From (T := Z) [] [BufferLen (-1)]).
Proof.
  split; [reflexivity|].
  intros [[it Hit]|Hp]; discriminate.
Qed.

(** Two more failures of the package's own code: [Unique] on a type that
    cannot be hashed panics when the first element is collected, and
    [Unique(DerefPointers(true))] on an interface type panics at once. *)
Example Unique_unhashable_panics :
  (it ← From [[1]; [1]]%Z [];
   '(it, h) ← Unique [] it ∅;
   Collect it h) = Panic UnhashableKey.
Proof. reflexivity. Qed.

Example Unique_deref_interface_panics :
  (it ← From [Some 1%Z; None] []; Unique (T := boxed) [DerefPointers true] it ∅)
  = Panic KindOnNilType.
Proof. reflexivity. Qed.

(** ** Validity is an invariant *)

Section Validity.
Context {RT : Runtime} {T : Type} `{GoType T}.
Implicit Types (it : iter T) (h : heap T).

(** Whatever a client calls, a valid cursor stays valid. *)
Lemma run_call_valid c it h o it' h' :
  valid it → run_call c it h = Ok (o, it', h') → valid it'.
Proof.
  intros Hv. destruct c; simpl.
  - destruct (Next_valid it Hv) as (v & b & it1 & -> & Hv1). simpl. by intros [= _ <- _].
  - rewrite ForEach_spec by done.
    destruct (fold_outcome _ _ _) as [s| |]; simpl; [|done..].
    intros [= _ <- _]. by apply valid_at_end.
  - intros [= _ <- _]. by apply valid_Map.
  - intros [= _ <- _]. by apply valid_Filter.
  - destruct (deref (apply_opts opts (UniqueOptions false))) eqn:Hd.
    + destruct (kindOfZero (T := T)) as [k|] eqn:Hk.
      * rewrite (Unique_deref _ _ _ k) by done. simpl.
        intros [= _ <- _]. exact Hv.
      * by rewrite Unique_deref_nil_type.
    + rewrite Unique_plain by done. simpl.
      intros [= _ <- _]. by apply valid_Filter.
  - rewrite Collect_collect_elements by done.
    destruct (collect_elements _ _ _) as [[r h1]| |]; simpl; [|done..].
    intros [= _ <- _]. by apply valid_at_end.
  - rewrite IntoChannel_ops by done. simpl. intros [= _ <- _]. by apply valid_at_end.
  - rewrite IntoChannel_ops by done. simpl. intros [= _ <- _]. by apply valid_at_end.
  - unfold CollectIntoChannel. rewrite Collect_collect_elements by done.
    destruct (collect_elements _ _ _) as [[r h1]| |]; simpl; [|done..].
    intros [= _ <- _]. by apply valid_at_end.
  - unfold CollectIntoChannel. rewrite Collect_collect_elements by done.
    destruct (collect_elements _ _ _) as [[r h1]| |]; simpl; [|done..].
    intros [= _ <- _]. by apply valid_at_end.
  - unfold Reduce. rewrite ForEach_spec by done.
    destruct (fold_outcome _ _ _) as [[r h1]| |]; simpl; [|done..].
    intros [= _ <- _]. by apply valid_at_end.
  - intros [= _ <- _]. by apply valid_Reset.
Qed.

Lemma run_calls_valid cs it h os it' h' :
  valid it → run_calls cs it h = Ok (os, it', h') → valid it'.
Proof.
  revert it h os. induction cs as [|c cs IH]; intros it h os Hv; simpl.
  { by intros [= _ <- _]. }
  destruct (run_call c it h) as [[[o it1] h1]| |] eqn:Hc; simpl; [|done..].
  apply run_call_valid in Hc; [|done].
  destruct (run_calls cs it1 h1) as [[[os1 it2] h2]| |] eqn:Hcs; simpl; [|done..].
  intros [= _ <- <-]. by eapply IH.
Qed.

(** Every cursor a sequential client can hold is valid. *)
Lemma reachable_valid src opts cs it0 h os it h' :
  From src opts = Ok it0 → run_calls cs it0 h = Ok (os, it, h') → valid it.
Proof.
  intros (Hv & _)%From_inv Hrun. by eapply run_calls_valid.
Qed.

End Validity.

(** ** The tests of the package *)

Local Open Scope Z_scope.

(** [Test_Iterator_Collect_Ints] *)
Example test_collect_multiple :
  (it ← From [1; 2; 3] []; collected (Collect it ∅)) = Ok ([1; 2; 3], 3%nat, ∅).
Proof. reflexivity. Qed.

Example test_collect_map :
  (it ← From [1; 2; 3] [];
   collected (Collect (Map (pure_fn (fun x => x * 2)) it) ∅))
  = Ok ([2; 4; 6], 3%nat, ∅).
Proof. reflexivity. Qed.

Example test_collect_map_filter_unique :
  (it ← From [1; 2; 3; 2; 1] [];
   '(it, h) ← Unique [] (Filter (pure_fn even) (Map (pure_fn (fun x => x * 2)) it)) ∅;
   '(l, _, _) ← Collect it h; Ok l)
  = Ok [2; 4; 6].
Proof. reflexivity. Qed.

Example test_collect_multiple_maps :
  (it ← From [1; 2; 3] [];
   '(l, _, _) ← Collect (Map (pure_fn (fun x => x * 3))
                           (Map (pure_fn (fun x => x * 2)) it)) ∅;
   Ok l)
  = Ok [6; 12; 18].
Proof. reflexivity. Qed.

(** [Test_Iterator_Collect_Strings], "unique" *)
Example test_collect_strings_unique :
  (it ← From ["a"; "b"; "c"; "b"; "a"]%string [];
   '(it, h) ← Unique [] it ∅;
   '(l, _, _) ← Collect it h; Ok l)
  = Ok ["a"; "b"; "c"]%string.
Proof. reflexivity. Qed.

(** [Test_Iterator_Reset]: [Reset] rewinds the index and keeps the
    operations. *)
Example test_reset :
  (it ← From [1; 2; 3; 4; 5] [];
   '(_, _, it) ← Next it;
   '(v, b, it) ← Next (Reset it);
   let it := Map (pure_fn (fun x => x * 2)) it in
   '(_, _, it) ← Next it;
   '(l, _, _) ← Collect (Reset it) ∅;
   Ok (v, b, l))
  = Ok (1, true, [2; 4; 6; 8; 10]).
Proof. reflexivity. Qed.

(** [Test_ThreadSafe], run by one goroutine: sixteen calls of [Next] on a
    thread-safe cursor of fifteen elements; the last one reports the end. *)
Example test_thread_safe_sequential :
  (it ← From [1; 2; 3; 4; 5; 6; 7; 8; 9; 10; 11; 12; 13; 14; 15] [ThreadSafe true];
   '(os, _, _) ← run_calls (replicate 16 CallNext) it ∅;
   Ok (last os))
  = Ok (Some (ObsNext 0 false)).
Proof. reflexivity. Qed.

(** [Test_BufferLen] and [Test_CloseChannel] *)
Example test_BufferLen :
  bufferLen (BufferLen 32 (FromOptions false false 64)) = 32.
Proof. reflexivity. Qed.

Example test_CloseChannel :
  closeChannel (CloseChannel true (IntoChannelOptions false)) = true.
Proof. reflexivity. Qed.

(** [Test_Iterator_CollectChannel]: the goroutine sends the collected values
    and closes the channel. *)
Example test_collect_channel :
  (it ← From [1; 2; 3; 4; 5] [];
   let it := Map (pure_fn (fun x => x * 2)) it in
   '(_, ops, _) ← (CollectChannel it).2 it ∅;
   Ok ops)
  = Ok [Send 2; Send 4; Send 6; Send 8; Send 10; Close].
Proof. reflexivity. Qed.

Local Close Scope Z_scope.

(** * Further properties *)

(** ** The slice functions of the benchmarks *)

Section Generic.
Context {RT : Runtime} {T : Type} `{GoType T}.
Implicit Types (it : iter T) (h : heap T) (l pre suf : list T).

Lemma genericMap_loop_spec (fn : T → M T T) suf pre done rest h :
  length done = length pre →
  length rest = length suf →
  genericMap_loop fn (pre ++ suf) (seq (length pre) (length suf)) (done ++ rest) h =
    '(ys, h') ← map_outcome fn suf h; Ok (done ++ ys, h').
Proof.
  revert pre done rest h.
  induction suf as [|x suf IH]; intros pre done rest h Hd Hr.
  { destruct rest; [|done]. done. }
  destruct rest as [|r rest]; [done|]. simpl in Hr.
  cbn [length seq genericMap_loop map_outcome].
  rewrite list_lookup_middle by done.
  destruct (fn x h) as [[y h1]| |]; simpl; [|done..].
  rewrite decide_True by (rewrite length_app; simpl; lia).
  rewrite insert_app_r_alt by lia.
  replace (length pre - length done) with 0 by lia. simpl.
  rewrite (cons_middle x pre suf), (cons_middle y done rest), !app_assoc.
  replace (S (length pre)) with (length (pre ++ [x]))
    by (rewrite length_app; simpl; lia).
  rewrite IH; [|rewrite !length_app; simpl; lia|lia].
  destruct (map_outcome fn suf h1) as [[ys h2]| |]; simpl; [|done..].
  by rewrite <- app_assoc.
Qed.

Lemma genericFilter_loop_spec (fn : T → M T bool) suf pre acc h :
  genericFilter_loop fn (pre ++ suf) (seq (length pre) (length suf)) acc h =
    '(ys, h') ← filter_outcome fn suf h; Ok (acc ++ ys, h').
Proof.
  revert pre acc h. induction suf as [|x suf IH]; intros pre acc h.
  { simpl. by rewrite app_nil_r. }
  cbn [length seq genericFilter_loop filter_outcome].
  rewrite list_lookup_middle by done.
  destruct (fn x h) as [[b h1]| |]; simpl; [|done..].
  rewrite (cons_middle x pre suf), !app_assoc.
  replace (S (length pre)) with (length (pre ++ [x]))
    by (rewrite length_app; simpl; lia).
  rewrite IH.
  destruct (filter_outcome fn suf h1) as [[ys h2]| |]; simpl; [|done..].
  destruct b; [|done]. by rewrite <- app_assoc.
Qed.

Lemma genericMap_map_outcome l fn h : genericMap l fn h = map_outcome fn l h.
Proof.
  unfold genericMap, make_zeroed.
  rewrite <- (app_nil_l l) at 1.
  rewrite <- (app_nil_l (replicate (length l) zero)).
  rewrite (genericMap_loop_spec fn l [] [] _ h); [|done|by rewrite length_replicate].
  by destruct (map_outcome fn l h) as [[ys h']| |].
Qed.

Lemma genericFilter_filter_outcome l fn h :
  genericFilter l fn h = filter_outcome fn l h.
Proof.
  unfold genericFilter.
  pose proof (genericFilter_loop_spec fn l [] [] h) as Hs. simpl in Hs.
  rewrite Hs. by destruct (filter_outcome fn l h) as [[ys h']| |].
Qed.

Lemma map_outcome_pure (f : T → T) l h :
  map_outcome (pure_fn f) l h = Ok (f <$> l, h).
Proof.
  induction l as [|x l IH]; [done|]. cbn [map_outcome].
  change (pure_fn f x h) with (Ok (f x, h) : outcome (T * heap T)).
  cbn [mbind outcome_bind]. by rewrite IH.
Qed.

Lemma filter_outcome_pure (p : T → bool) l h :
  filter_outcome (pure_fn p) l h = Ok (List.filter p l, h).
Proof.
  induction l as [|x l IH]; [done|]. cbn [filter_outcome].
  change (pure_fn p x h) with (Ok (p x, h) : outcome (bool * heap T)).
  cbn [mbind outcome_bind]. rewrite IH. simpl. by destruct (p x).
Qed.

Lemma map_outcome_length fn l h r h' :
  map_outcome fn l h = Ok (r, h') → length r = length l.
Proof.
  revert h r h'. induction l as [|x l IH]; intros h r h'; simpl.
  { by intros [= <- _]. }
  destruct (fn x h) as [[y h1]| |]; simpl; [|done..].
  destruct (map_outcome fn l h1) as [[ys h2]| |] eqn:E; simpl; [|done..].
  intros [= <- _]. simpl. f_equal. by eapply IH.
Qed.

(** X1: [genericMap] calls [fn] on the elements of [source] from first to
    last and returns a slice of the same length that holds the results in
    the same places; [genericFilter] calls [fn] on the elements from first to
    last and returns those for which it said true, in their order.  Neither
    indexes outside a slice.  For functions without effects they are [map] and
    [filter]. *)
Theorem generic_functions (source : list T) (h : heap T) :
  (∀ fn, genericMap source fn h = map_outcome fn source h) ∧
  (∀ fn r h', genericMap source fn h = Ok (r, h') → length r = length source) ∧
  (∀ fn, genericFilter source fn h = filter_outcome fn source h) ∧
  (∀ f : T → T, genericMap source (pure_fn f) h = Ok (f <$> source, h)) ∧
  (∀ p : T → bool,
     genericFilter source (pure_fn p) h = Ok (List.filter p source, h)).
Proof.
  split_and!.
  - intros fn. apply genericMap_map_outcome.
  - intros fn r h'. rewrite genericMap_map_outcome. apply map_outcome_length.
  - intros fn. apply genericFilter_filter_outcome.
  - intros f. by rewrite genericMap_map_outcome, map_outcome_pure.
  - intros p. by rewrite genericFilter_filter_outcome, filter_outcome_pure.
Qed.

End Generic.

(** ** Chains of operations without effects *)

Section Chains.
Context {RT : Runtime} {T : Type} `{GoType T}.
Implicit Types (it : iter T) (h : heap T) (l : list T) (steps : list (step T))
  (ops : list (maybe T → M T (maybe T))).

Lemma elems_register it steps :
  elems (operations (register it steps)) =
    elems (operations it) ++ (step_op <$> steps).
Proof.
  revert it. induction steps as [|st steps IH]; intros it; simpl.
  { by rewrite app_nil_r. }
  unfold register in *. cbn [foldl]. rewrite IH, ?fmap_cons.
  destruct st; cbn [register_step step_op];
    [rewrite elems_Map|rewrite elems_Filter]; by rewrite <- app_assoc.
Qed.

Lemma register_set_nextIndex n it steps :
  set_nextIndex n (register it steps) = register (set_nextIndex n it) steps.
Proof.
  revert it. induction steps as [|st steps IH]; intros it; [done|].
  unfold register in *. simpl. rewrite IH. by destruct st.
Qed.

Lemma valid_register it steps : valid it → valid (register it steps).
Proof.
  revert it. induction steps as [|st steps IH]; intros it Hv; [done|].
  unfold register in *. simpl. apply IH. by destruct st.
Qed.

Lemma source_register it steps : source (register it steps) = source it.
Proof.
  revert it. induction steps as [|st steps IH]; intros it; [done|].
  unfold register in *. simpl. rewrite IH. by destruct st.
Qed.

Lemma nextIndex_register it steps : nextIndex (register it steps) = nextIndex it.
Proof.
  revert it. induction steps as [|st steps IH]; intros it; [done|].
  unfold register in *. simpl. rewrite IH. by destruct st.
Qed.

Lemma through_steps_step st x h :
  through_steps [step_op st] x h = Ok (stage_elem st (Some x), h).
Proof. destruct st as [f|p]; simpl; [done|]. unfold pure_fn. simpl. by destruct (p x). Qed.

(** A step without effects at the end of the operations works on the slice
    that the operations before it leave. *)
Lemma collect_elements_step_last ops st l h :
  collect_elements (ops ++ [step_op st]) l h =
    '(r, h') ← collect_elements ops l h; Ok (stage st r, h').
Proof.
  revert h. induction l as [|x l IH]; intros h.
  { by destruct st. }
  cbn [collect_elements]. rewrite through_steps_app.
  destruct (through_steps ops x h) as [[[y|] h1]| |];
    cbn [mbind outcome_bind]; [| |done..].
  - rewrite through_steps_step. cbn [mbind outcome_bind]. rewrite IH.
    destruct (collect_elements ops l h1) as [[r h2]| |]; simpl; [|done..].
    destruct st as [f|p]; simpl; [done|]. by destruct (p y).
  - rewrite IH. by destruct (collect_elements ops l h1) as [[r h2]| |].
Qed.

Lemma collect_elements_steps_last ops steps l h :
  collect_elements (ops ++ (step_op <$> steps)) l h =
    '(r, h') ← collect_elements ops l h; Ok (staged steps r, h').
Proof.
  induction steps as [|st steps IH] using rev_ind.
  { simpl. rewrite app_nil_r. by destruct (collect_elements ops l h) as [[r h']| |]. }
  rewrite fmap_app, app_assoc. simpl. rewrite collect_elements_step_last, IH.
  destruct (collect_elements ops l h) as [[r h']| |]; simpl; [|done..].
  unfold staged. by rewrite foldl_app.
Qed.

Lemma stage_by_stage_staged steps l h :
  stage_by_stage steps l h = Ok (staged steps l, h).
Proof.
  revert l. induction steps as [|[f|p] steps IH]; intros l; simpl; [done|..].
  - rewrite genericMap_map_outcome, map_outcome_pure. simpl. apply IH.
  - rewrite genericFilter_filter_outcome, filter_outcome_pure. simpl. apply IH.
Qed.

Lemma staged_length steps l : length (staged steps l) ≤ length l.
Proof.
  revert l. induction steps as [|[f|p] steps IH]; intros l; simpl; [done|..].
  - etrans; [apply IH|]. by rewrite length_fmap.
  - etrans; [apply IH|]. apply List.filter_length_le.
Qed.

(** X2: a chain of [Map] and [Filter] steps without effects, registered on
    any valid cursor, makes [Collect] return what running the chain stage by
    stage over the whole slice returns, each stage working on the slice the
    stage before it left (after the operations the cursor already had); on a
    cursor without other operations this is what the benchmarks compute with
    [genericMap] and [genericFilter]; and every further pass after [Reset]
    returns the chain's result on the whole source again. *)
Theorem lazy_chain_is_stage_by_stage it steps h :
  valid it →
  Collect (register it steps) h =
    ('(r, h') ← collect_elements (elems (operations it))
                  (drop (nextIndex it) (source it)) h;
     Ok (staged steps r, set_nextIndex (length (source it)) (register it steps), h')) ∧
  (elems (operations it) = [] →
     Collect (register it steps) h =
       '(r, h') ← stage_by_stage steps (drop (nextIndex it) (source it)) h;
       Ok (r, set_nextIndex (length (source it)) (register it steps), h')) ∧
  (elems (operations it) = [] →
     ∀ res it' h',
       Collect (register it steps) h = Ok (res, it', h') →
       Collect (Reset it') h' = Ok (staged steps (source it), it', h')).
Proof.
  intros Hv.
  assert (HC : ∀ it0, valid it0 →
    Collect (register it0 steps) h =
      '(r, h') ← collect_elements (elems (operations it0))
                   (drop (nextIndex it0) (source it0)) h;
      Ok (staged steps r, set_nextIndex (length (source it0)) (register it0 steps), h')).
  { intros it0 Hv0.
    rewrite Collect_collect_elements by by apply valid_register.
    rewrite elems_register, source_register, nextIndex_register.
    rewrite collect_elements_steps_last.
    by destruct (collect_elements _ _ _) as [[r h']| |]. }
  split_and!.
  - by apply HC.
  - intros Hops. rewrite HC, Hops, collect_elements_no_steps by done.
    by rewrite stage_by_stage_staged.
  - intros Hops res it' h'. rewrite HC, Hops, collect_elements_no_steps by done.
    simpl. intros [= <- <- <-].
    unfold Reset. rewrite set_nextIndex_twice, register_set_nextIndex.
    rewrite HC by by apply valid_Reset.
    simpl. rewrite Hops, collect_elements_no_steps, drop_0. simpl.
    by rewrite <- !register_set_nextIndex, set_nextIndex_twice.
Qed.

End Chains.

Lemma lazy_chain_is_stage_by_stage_witness :
  valid ints_it ∧
  Collect (register ints_it [FilterStep even; MapStep (fun x => x * 2)%Z;
                             FilterStep div3; MapStep (fun x => x `quot` 2)%Z]) ∅ =
    '(r, h') ← stage_by_stage [FilterStep even; MapStep (fun x => x * 2)%Z;
                               FilterStep div3; MapStep (fun x => x `quot` 2)%Z]
                 [1; 2; 3; 2; 1]%Z ∅;
    Ok (r, set_nextIndex 5
             (register ints_it [FilterStep even; MapStep (fun x => x * 2)%Z;
                                FilterStep div3; MapStep (fun x => x `quot` 2)%Z]), h').
Proof.
  assert (Hv : valid ints_it) by (split; [reflexivity|simpl; lia]).
  split; [exact Hv|].
  destruct (lazy_chain_is_stage_by_stage (RT := runtime64) ints_it
              [FilterStep even; MapStep (fun x => x * 2)%Z;
               FilterStep div3; MapStep (fun x => x `quot` 2)%Z] ∅ Hv)
    as (_ & Hfresh & _).
  exact (Hfresh eq_refl).
Defined.

(** ** Two maps in a row *)

Section Maps.
Context {RT : Runtime} {T : Type} `{GoType T}.
Implicit Types (it : iter T) (h : heap T).

Lemma through_steps_two_maps (f1 f2 : T → M T T) v h :
  through_steps [map_op f1; map_op f2] v h =
  through_steps [map_op (then_fn f1 f2)] v h.
Proof.
  simpl. unfold map_op, then_fn. simpl.
  destruct (f1 v h) as [[y h1]| |]; simpl; [|done..].
  by destruct (f2 y h1) as [[z h2]| |].
Qed.

Lemma then_fn_pure (f1 f2 : T → T) x h :
  then_fn (pure_fn f1) (pure_fn f2) x h = pure_fn (f2 ∘ f1) x h.
Proof. done. Qed.

(** X3: on every valid cursor, whatever is already registered, collecting
    after [Map(f1).Map(f2)] gives what collecting after one [Map] with
    [f2(f1(x))] gives: the same slice, final index and effects; for functions
    without effects on a cursor without other operations, it is the remaining
    elements with [f2 ∘ f1] applied. *)
Theorem Map_Map_composition it h :
  valid it →
  (∀ f1 f2 : T → M T T,
     collected (Collect (Map f2 (Map f1 it)) h) =
     collected (Collect (Map (then_fn f1 f2) it) h)) ∧
  (∀ f1 f2 : T → T,
     collected (Collect (Map (pure_fn f2) (Map (pure_fn f1) it)) h) =
     collected (Collect (Map (pure_fn (f2 ∘ f1)) it) h)) ∧
  (∀ f1 f2 : T → T,
     elems (operations it) = [] →
     collected (Collect (Map (pure_fn f2) (Map (pure_fn f1) it)) h) =
       Ok ((f2 ∘ f1) <$> drop (nextIndex it) (source it), length (source it), h)).
Proof.
  intros Hv.
  assert (Hgen : ∀ f1 f2 : T → M T T,
     collected (Collect (Map f2 (Map f1 it)) h) =
     collected (Collect (Map (then_fn f1 f2) it) h)).
  { intros f1 f2. unfold collected.
    rewrite !Collect_collect_elements by done.
    rewrite !elems_Map, <- app_assoc. simpl.
    rewrite (collect_elements_ext _ (elems (operations it) ++ [map_op (then_fn f1 f2)])).
    - by destruct (collect_elements _ _ _) as [[r h']| |].
    - intros v h'. rewrite !through_steps_app.
      destruct (through_steps (elems (operations it)) v h') as [[[y|] h1]| |];
        simpl; try done.
      apply through_steps_two_maps. }
  split_and!; [done|intros f1 f2; apply Hgen|].
  intros f1 f2 Hops. rewrite Hgen. unfold collected.
  change (then_fn (pure_fn f1) (pure_fn f2)) with (pure_fn (T := T) (f2 ∘ f1)).
  rewrite Collect_collect_elements by by apply valid_Map.
  rewrite elems_Map.
  change (map_op (pure_fn (f2 ∘ f1))) with (step_op (MapStep (f2 ∘ f1))).
  rewrite collect_elements_step_last, Hops, collect_elements_no_steps. done.
Qed.

End Maps.

Lemma Map_Map_composition_witness :
  valid ints_it ∧
  collected (Collect (Map (pure_fn (fun x => x * 3)%Z)
                        (Map (pure_fn (fun x => x * 2)%Z) ints_it)) ∅) =
    Ok ([6; 12; 18; 12; 6]%Z, 5, ∅).
Proof.
  assert (Hv : valid ints_it) by (split; [reflexivity|simpl; lia]).
  split; [exact Hv|].
  destruct (Map_Map_composition (RT := runtime64) ints_it ∅ Hv) as (_ & _ & Hfresh).
  exact (Hfresh (fun x => x * 2)%Z (fun x => x * 3)%Z eq_refl).
Defined.

(** ** Rewinding, stepping, draining *)

Section Draining.
Context {RT : Runtime} {T : Type} `{GoType T}.
Implicit Types (it : iter T) (h : heap T).

(** X4: [Reset] puts the index back to 0 and touches nothing else: the
    operations, the source and the mutex stay.  On a cursor with a free
    mutex, wherever its index was, the next [Next] returns the first element
    of the source (or reports the end when the source is empty), and the next
    [Collect] runs the operations over the whole source. *)
Theorem Reset_rewinds it h :
  mu it = false →
  operations (Reset it) = operations it ∧
  source (Reset it) = source it ∧
  valid (Reset it) ∧
  Next (Reset it) =
    match source it with
    | [] => Ok (zero, false, Reset it)
    | x :: _ => Ok (x, true, set_nextIndex 1 it)
    end ∧
  Collect (Reset it) h =
    ('(res, h') ← collect_elements (elems (operations it)) (source it) h;
     Ok (res, set_nextIndex (length (source it)) it, h')).
Proof.
  intros Hmu.
  assert (Hv : valid (Reset it)) by (split; simpl; [done|lia]).
  split_and!; [done..| |].
  - rewrite Next_next by done.
    destruct (source it) as [|x l] eqn:Hsrc.
    + rewrite next_ge; [done|]. simpl. rewrite Hsrc. simpl. lia.
    + rewrite (next_lt _ x); [done|]. simpl. by rewrite Hsrc.
  - rewrite Collect_collect_elements by done. simpl. by rewrite drop_0.
Qed.

(** X5: [n] calls of [Next] in a row on a valid cursor return the next [n]
    remaining elements in order, each with [true], and once the source is
    used up the zero value with [false], every time; the index advances by
    the number of elements returned and never passes [len(source)]. *)
Theorem Next_repeated it h (n : nat) :
  valid it →
  run_calls (replicate n CallNext) it h =
    Ok (((fun x => ObsNext x true) <$> take n (drop (nextIndex it) (source it))) ++
        replicate (n - (length (source it) - nextIndex it)) (ObsNext zero false),
        set_nextIndex (nextIndex it + n `min` (length (source it) - nextIndex it)) it,
        h).
Proof.
  revert it. induction n as [|n IH]; intros it Hv.
  { simpl. rewrite Nat.add_0_r. by rewrite set_nextIndex_id. }
  cbn [replicate run_calls run_call].
  destruct Hv as [Hmu Hle]. rewrite Next_next by done.
  destruct (decide (length (source it) ≤ nextIndex it)) as [Hge|Hlt].
  - rewrite next_ge by done. cbn [mbind outcome_bind].
    rewrite IH by done. cbn [mbind outcome_bind].
    rewrite drop_ge by done. rewrite take_nil. simpl.
    replace (length (source it) - nextIndex it) with 0 by lia.
    rewrite !Nat.sub_0_r, !Nat.min_0_r. done.
  - destruct (lookup_lt_is_Some_2 (source it) (nextIndex it)) as [v Hv]; [lia|].
    rewrite (next_lt it v Hv). cbn [mbind outcome_bind].
    rewrite IH by (split; simpl; [done|lia]). cbn [mbind outcome_bind].
    replace (S n - (length (source it) - nextIndex it))
      with (n - (length (source it) - S (nextIndex it))) by lia.
    replace (nextIndex it + S n `min` (length (source it) - nextIndex it))
      with (S (nextIndex it) + n `min` (length (source it) - S (nextIndex it)))
      by lia.
    rewrite (drop_S _ _ _ Hv). simpl. by rewrite Nat.add_1_r.
Qed.

(** X6: [ForEach] calls [fn] once on every remaining raw element, in source
    order, and on nothing else; the registered operations are not applied;
    the index ends at [len(source)]; a panic of [fn] ends the loop at once.
    With nothing remaining, [fn] is not called at all. *)
Theorem ForEach_raw {St : Type} (fn : T → St → outcome St) it (s : St) :
  valid it →
  ForEach fn it s =
    (s' ← fold_outcome fn (drop (nextIndex it) (source it)) s;
     Ok (set_nextIndex (length (source it)) it, s')) ∧
  ForEach (fun v l => Ok (l ++ [v])) it [] =
    Ok (set_nextIndex (length (source it)) it, drop (nextIndex it) (source it)) ∧
  (∀ ops, ForEach fn (set_operations ops it) s =
            '(it', s') ← ForEach fn it s; Ok (set_operations ops it', s')) ∧
  (∀ l1 x l2 s1 p,
     drop (nextIndex it) (source it) = l1 ++ x :: l2 →
     fold_outcome fn l1 s = Ok s1 → fn x s1 = Panic p →
     ForEach fn it s = Panic p) ∧
  (exhausted it → ForEach fn it s = Ok (it, s)).
Proof.
  intros Hv.
  assert (Hrec : ∀ (l : list T) acc,
    fold_outcome (fun v l => Ok (l ++ [v])) l acc = Ok (acc ++ l)).
  { intros l. induction l as [|x l IH]; intros acc; simpl.
    - by rewrite app_nil_r.
    - rewrite IH. by rewrite <- app_assoc. }
  assert (Happ : ∀ (l1 l2 : list T) s0,
    fold_outcome fn (l1 ++ l2) s0 = s1 ← fold_outcome fn l1 s0; fold_outcome fn l2 s1).
  { intros l1. induction l1 as [|y l1 IH]; intros l2 s0; simpl; [done|].
    destruct (fn y s0) as [s1| |]; simpl; [|done..]. apply IH. }
  split_and!.
  - by apply ForEach_spec.
  - rewrite ForEach_spec by done. by rewrite Hrec.
  - intros ops. rewrite !ForEach_spec by done. simpl.
    by destruct (fold_outcome _ _ _) as [s'| |].
  - intros l1 x l2 s1 p Hdrop Hl1 Hx. rewrite ForEach_spec by done.
    rewrite Hdrop, Happ, Hl1. simpl. by rewrite Hx.
  - intros Hex. rewrite ForEach_spec by done. unfold exhausted in Hex.
    rewrite drop_ge by lia. simpl. by rewrite <- Hex, set_nextIndex_id.
Qed.


End Draining.

Lemma Reset_rewinds_witness :
  mu ints_sync_it = false ∧
  Next (Reset ints_sync_it) = Ok (1%Z, true, set_nextIndex 1 ints_sync_it).
Proof.
  split; [reflexivity|].
  destruct (Reset_rewinds ints_sync_it ∅ eq_refl) as (_ & _ & _ & HNext & _).
  exact HNext.
Defined.

Lemma Next_repeated_witness :
  valid ints_sync_it ∧
  run_calls (replicate 5 CallNext) ints_sync_it ∅ =
    Ok ([ObsNext 3 true; ObsNext 2 true; ObsNext 1 true;
         ObsNext 0 false; ObsNext 0 false]%Z,
        set_nextIndex 5 ints_sync_it, ∅).
Proof.
  assert (Hv : valid ints_sync_it) by (split; [reflexivity|simpl; lia]).
  split; [exact Hv|].
  exact (Next_repeated (RT := runtime64) ints_sync_it ∅ 5 Hv).
Defined.

Lemma ForEach_raw_witness :
  valid ints_pipeline_it ∧
  ForEach (fun v l => Ok (l ++ [v])) ints_pipeline_it [] =
    Ok (set_nextIndex 5 ints_pipeline_it, [1; 2; 3; 2; 1]%Z).
Proof.
  assert (Hv : valid ints_pipeline_it) by (split; [reflexivity|simpl; lia]).
  split; [exact Hv|].
  destruct (ForEach_raw (fun v l => Ok (l ++ [v])) ints_pipeline_it [] Hv)
    as (_ & Hrec & _).
  exact Hrec.
Defined.


(** ** What no call changes *)

Section Frame.
Context {RT : Runtime} {T : Type} `{GoType T}.
Implicit Types (it : iter T) (h : heap T).













End Frame.


(** ** The thread-safe cursor in sequential use *)

Section ThreadSafety.
Context {RT : Runtime} {T : Type} `{GoType T}.
Implicit Types (it : iter T) (h : heap T).

Local Infix "≈" := same_but_nextFunc (at level 70).












Lemma from_options_ThreadSafe opts b :
  from_options (opts ++ [ThreadSafe b]) =
    FromOptions (copySource (from_options opts)) b (bufferLen (from_options opts)).
Proof. unfold from_options, apply_opts. by rewrite foldl_app. Qed.


End ThreadSafety.


(** ** Writes of the caller to the slice given to [From] *)

Section Aliasing.
Context {RT : Runtime} {T : Type} `{GoType T}.
Implicit Types (it : iter T) (h : heap T) (arrays : gmap nat (list T)).

Lemma lookup_total_fresh arrays : arrays !!! fresh (dom arrays) = ([] : list T).
Proof.
  rewrite lookup_total_alt.
  by rewrite (proj1 (not_elem_of_dom arrays _) (is_fresh (dom arrays))).
Qed.

Lemma FromSlice_inv a opts arrays hd arrays1 :
  FromSlice a opts arrays = Ok (hd, arrays1) →
  source (cursor hd) = arrays !!! a ∧
  arrays1 !!! backing hd = arrays !!! a ∧
  arrays1 !!! a = arrays !!! a ∧
  (if copySource (from_options opts)
   then arrays !!! a ≠ [] → backing hd ≠ a
   else backing hd = a).
Proof.
  unfold FromSlice.
  destruct (From (arrays !!! a) opts) as [it| |] eqn:HF; simpl; [|done..].
  apply From_inv in HF as (_ & _ & Hsrc & _).
  destruct (copySource (from_options opts)).
  - intros [= <- <-]. simpl. rewrite lookup_total_insert_eq.
    split_and!; [done..| |].
    + destruct (decide (fresh (dom arrays) = a)) as [Heq|Hne].
      * rewrite Heq, lookup_total_insert_eq. done.
      * by rewrite lookup_total_insert_ne.
    + intros Hne Heq. apply Hne. rewrite <- Heq. apply lookup_total_fresh.
  - intros [= <- <-]. by simpl.
Qed.

(** X10: the caller writes [s[i] = v] after [From(s, opts...)].  With
    [CopySource] in force the cursor is untouched and goes on reading the
    elements the slice held when [From] was called; without it the cursor
    reads the caller's array, so it sees the new element, also at positions
    it has not reached yet and after [Reset]. *)
Theorem CopySource_isolates_caller_writes (a : nat) (opts : list FromOption)
    arrays hd arrays1 (i : nat) (v : T) arrays2 :
  FromSlice a opts arrays = Ok (hd, arrays1) →
  store_elem a i v arrays1 = Ok arrays2 →
  (copySource (from_options opts) = true →
     current hd arrays2 = current hd arrays1 ∧
     source (current hd arrays2) = arrays !!! a) ∧
  (copySource (from_options opts) = false →
     source (current hd arrays2) = <[i := v]> (arrays !!! a) ∧
     source (current hd arrays2) !! i = Some v).
Proof.
  intros HF Hst. destruct (FromSlice_inv _ _ _ _ _ HF) as (Hs & Hb & Ha & Hc).
  unfold store_elem in Hst. case_decide as Hi; [|done]. injection Hst as <-.
  rewrite Ha in Hi.
  split; intros Hcopy; rewrite Hcopy in Hc; unfold current; simpl.
  - assert (backing hd ≠ a) as Hne.
    { apply Hc. intros Hnil. rewrite Hnil in Hi. simpl in Hi. lia. }
    rewrite lookup_total_insert_ne by done. by rewrite Hb.
  - rewrite Hc, lookup_total_insert_eq, Ha.
    split; [done|]. by apply list_lookup_insert_eq.
Qed.

End Aliasing.

Lemma CopySource_isolates_caller_writes_witness :
  ∃ hd arrays1 arrays2,
    FromSlice (RT := runtime64) 0 [CopySource true] {[0%nat := [1; 2; 3]%Z]}
      = Ok (hd, arrays1) ∧
    store_elem 0 1 7%Z arrays1 = Ok arrays2 ∧
    source (current hd arrays2) = [1; 2; 3]%Z.
Proof.
  eexists _, _, _.
  assert (HF : FromSlice (RT := runtime64) 0 [CopySource true]
                 ({[0%nat := [1; 2; 3]%Z]} : gmap nat (list Z)) = Ok _)
    by (vm_compute; reflexivity).
  assert (Hst : store_elem 0 1 7%Z
                  (<[fresh (dom ({[0%nat := [1; 2; 3]%Z]} : gmap nat (list Z)))
                     := [1; 2; 3]%Z]> {[0%nat := [1; 2; 3]%Z]}) = Ok _)
    by (vm_compute; reflexivity).
  destruct (CopySource_isolates_caller_writes _ _ _ _ _ _ _ _ HF Hst) as (Hcopy & _).
  split; [exact HF|]. split; [exact Hst|].
  destruct (Hcopy eq_refl) as (_ & Hsrc). exact Hsrc.
Defined.

(** ** What [Collect] can return *)

Section Bounds.
Context {RT : Runtime} {T : Type} `{GoType T}.
Implicit Types (it : iter T) (h : heap T).

Lemma collect_elements_length ops (l : list T) h r h' :
  collect_elements ops l h = Ok (r, h') → length r ≤ length l.
Proof.
  revert h r h'. induction l as [|x l IH]; intros h r h'; simpl.
  { by intros [= <- _]. }
  destruct (through_steps ops x h) as [[o h1]| |]; simpl; [|done..].
  destruct (collect_elements ops l h1) as [[rest h2]| |] eqn:Hrest; simpl; [|done..].
  apply IH in Hrest. intros [= <- _]. destruct o; simpl; lia.
Qed.

Lemma through_steps_filters_only ops (v : T) h o h' :
  filters_only ops → through_steps ops v h = Ok (o, h') → o = Some v ∨ o = None.
Proof.
  intros Hops. revert v h. induction Hops as [|op ops [fn ->] _ IH]; intros v h; simpl.
  { intros [= <- _]. by left. }
  unfold filter_op at 1. simpl.
  destruct (fn v h) as [[b h1]| |]; simpl; [|done..].
  destruct b; [apply IH|]. intros [= <- _]. by right.
Qed.

Lemma collect_elements_filters_only ops (l : list T) h r h' :
  filters_only ops → collect_elements ops l h = Ok (r, h') → r `sublist_of` l.
Proof.
  intros Hops. revert h r h'. induction l as [|x l IH]; intros h r h'; simpl.
  { by intros [= <- _]. }
  destruct (through_steps ops x h) as [[o h1]| |] eqn:Hx; simpl; [|done..].
  destruct (collect_elements ops l h1) as [[rest h2]| |] eqn:Hrest; simpl; [|done..].
  apply IH in Hrest. intros [= <- _].
  destruct (through_steps_filters_only _ _ _ _ _ Hops Hx) as [-> | ->].
  - by apply sublist_skip.
  - by apply sublist_cons.
Qed.

Lemma filters_only_Filter fn it :
  filters_only (elems (operations it)) →
  filters_only (elems (operations (Filter fn it))).
Proof.
  intros Hops. rewrite elems_Filter. apply Forall_app. split; [done|].
  apply Forall_singleton. by exists fn.
Qed.

Lemma filters_only_Unique opts it h it' h' :
  filters_only (elems (operations it)) →
  Unique opts it h = Ok (it', h') →
  filters_only (elems (operations it')).
Proof.
  intros Hops. unfold Unique, make_map. simpl.
  destruct (deref _); simpl; [destruct kindOfZero; simpl; [|done]|];
    intros [= <- _]; by apply filters_only_Filter.
Qed.

(** X11: [Collect] never returns more elements than the cursor had left.
    When every registered operation is a filter (from [Filter] or [Unique]),
    the result is a subsequence of the remaining raw elements: values are
    unchanged and keep their order; this holds for cursors built by [Filter]
    and [Unique] from a cursor without operations. *)
Theorem Collect_within_remaining it h (res : list T) it' h' :
  valid it →
  Collect it h = Ok (res, it', h') →
  length res ≤ length (source it) - nextIndex it ∧
  (filters_only (elems (operations it)) →
     res `sublist_of` drop (nextIndex it) (source it)) ∧
  (∀ fn, filters_only (elems (operations it)) →
     filters_only (elems (operations (Filter fn it)))) ∧
  (∀ opts it1 h1, filters_only (elems (operations it)) →
     Unique opts it h = Ok (it1, h1) →
     filters_only (elems (operations it1))).
Proof.
  intros Hv. rewrite Collect_collect_elements by done.
  destruct (collect_elements _ _ _) as [[r h1]| |] eqn:HC; simpl; [|done..].
  intros [= <- _ _]. split_and!.
  - apply collect_elements_length in HC. by rewrite length_drop in HC.
  - intros Hops. by eapply collect_elements_filters_only.
  - intros fn. apply filters_only_Filter.
  - intros opts it1 h2. apply filters_only_Unique.
Qed.

End Bounds.

Lemma Collect_within_remaining_witness :
  ∃ res it' h',
    valid (Filter (pure_fn even) ints_it) ∧
    Collect (Filter (pure_fn even) ints_it) ∅ = Ok (res, it', h') ∧
    length res ≤ 5.
Proof.
  eexists _, _, _.
  assert (Hv : valid (Filter (pure_fn even) ints_it))
    by (split; [reflexivity|simpl; lia]).
  assert (HC : Collect (Filter (pure_fn even) ints_it) ∅ = Ok _)
    by (vm_compute; reflexivity).
  destruct (Collect_within_remaining _ _ _ _ _ Hv HC) as (Hlen & _).
  split; [exact Hv|]. split; [exact HC|]. exact Hlen.
Defined.

(** ** Channels from any position *)

Section ChannelsAnywhere.
Context {RT : Runtime} {T : Type} `{GoType T}.
Implicit Types (it : iter T) (h : heap T).

(** A producer that sends at most as many values as the channel can queue
    and then closes it. *)
Lemma delivery_never_blocks cap (src : list T) d :
  length src ≤ cap →
  rtc delivery_step (Delivery (Chan [] cap false) ((Send <$> src) ++ [Close]) []) d →
  (d_todo d ≠ [] → producer_enabled d) ∧
  d_received d ++ chan_buf (d_chan d) ++ sends (d_todo d) = src ∧
  (chan_closed (d_chan d) = true ↔ d_todo d = []).
Proof.
  intros Hlen [Hcap [(rest & Htodo & Hcl & Hall)|(Htodo & Hcl & Hall)]]%delivery_close_inv.
  - split_and!.
    + intros _. unfold producer_enabled. rewrite Htodo.
      destruct rest as [|x rest]; simpl; [done|]. split; [done|].
      rewrite Hcap. rewrite <- Hall, !length_app in Hlen. simpl in Hlen. lia.
    + rewrite Htodo. unfold sends. rewrite omap_app. fold (sends (Send <$> rest)).
      rewrite sends_fmap_Send. simpl. by rewrite app_nil_r.
    + rewrite Hcl, Htodo. split; [done|]. by destruct rest.
  - split_and!; [done| |done].
    rewrite Htodo. simpl. by rewrite app_nil_r.
Qed.

(** X12: [Channel()] on a cursor that has already yielded some elements
    sends the elements it has not yielded yet, raw and in order, then closes
    the channel, and leaves the cursor at the end.  The channel has room for
    the whole source, so the sender never waits for a receiver, and no value
    is lost or reordered on the way. *)
Theorem Channel_from_any_position it :
  valid it →
  (Channel it).2 it =
    Ok (set_nextIndex (length (source it)) it,
        (Send <$> drop (nextIndex it) (source it)) ++ [Close]) ∧
  ∀ d, rtc delivery_step
         (Delivery (Channel it).1
            ((Send <$> drop (nextIndex it) (source it)) ++ [Close]) []) d →
       (d_todo d ≠ [] → producer_enabled d) ∧
       d_received d ++ chan_buf (d_chan d) ++ sends (d_todo d) =
         drop (nextIndex it) (source it) ∧
       (chan_closed (d_chan d) = true ↔ d_todo d = []).
Proof.
  intros Hv. split.
  - simpl. by rewrite IntoChannel_ops.
  - intros d. apply delivery_never_blocks. rewrite length_drop. lia.
Qed.

(** X13: [CollectChannel()] evaluates the pipeline to the end first and only
    then sends: what the goroutine sends is exactly the slice [Collect]
    returns, in order, followed by the close.  The channel has room for the
    whole source and the result is never longer, so the sender never waits;
    at every moment the values received, queued and still to be sent make up
    the result.  [CollectIntoChannel] sends the same values and closes the
    channel exactly when [CloseChannel(true)] is given. *)
Theorem CollectChannel_sends_collected it h it' ops h' :
  valid it →
  (CollectChannel it).2 it h = Ok (it', ops, h') →
  ∃ res,
    Collect it h = Ok (res, it', h') ∧
    ops = (Send <$> res) ++ [Close] ∧
    (∀ d, rtc delivery_step (Delivery (CollectChannel it).1 ops []) d →
          (d_todo d ≠ [] → producer_enabled d) ∧
          d_received d ++ chan_buf (d_chan d) ++ sends (d_todo d) = res ∧
          (chan_closed (d_chan d) = true ↔ d_todo d = [])) ∧
    CollectIntoChannel [] it h = Ok (it', Send <$> res, h') ∧
    (∀ b : bool,
       CollectIntoChannel [CloseChannel b] it h =
         Ok (it', (Send <$> res) ++ (if b then [Close] else []), h')).
Proof.
  intros Hv. simpl. unfold CollectIntoChannel. simpl.
  destruct (Collect it h) as [[[res it1] h1]| |] eqn:HC; simpl; [|done..].
  intros [= <- <- <-]. exists res. split_and!; [done..| | |].
  - intros d. apply delivery_never_blocks.
    rewrite Collect_collect_elements in HC by done.
    destruct (collect_elements _ _ _) as [[r h2]| |] eqn:HE; simpl in HC; [|done..].
    injection HC as <- _ _. apply collect_elements_length in HE.
    rewrite length_drop in HE. lia.
  - done.
  - intros []; simpl; [done|]. by rewrite app_nil_r.
Qed.

End ChannelsAnywhere.

Lemma Channel_from_any_position_witness :
  valid (set_nextIndex 2 ints_it) ∧
  (Channel (set_nextIndex 2 ints_it)).2 (set_nextIndex 2 ints_it) =
    Ok (set_nextIndex 5 ints_it, [Send 3; Send 2; Send 1; Close]%Z).
Proof.
  assert (Hv : valid (set_nextIndex 2 ints_it)) by (split; [reflexivity|simpl; lia]).
  split; [exact Hv|].
  exact (proj1 (Channel_from_any_position _ Hv)).
Defined.

Lemma CollectChannel_sends_collected_witness :
  ∃ it' ops h',
    valid (Filter (pure_fn even) ints_it) ∧
    (CollectChannel (Filter (pure_fn even) ints_it)).2
      (Filter (pure_fn even) ints_it) ∅ = Ok (it', ops, h') ∧
    ops = [Send 2; Send 2; Close]%Z.
Proof.
  eexists _, _, _.
  assert (Hv : valid (Filter (pure_fn even) ints_it))
    by (split; [reflexivity|simpl; lia]).
  assert (HC : (CollectChannel (Filter (pure_fn even) ints_it)).2
                 (Filter (pure_fn even) ints_it) ∅ = Ok _)
    by (vm_compute; reflexivity).
  destruct (CollectChannel_sends_collected _ _ _ _ _ Hv HC) as (res & _ & Hops & _).
  split; [exact Hv|]. split; [exact HC|]. reflexivity.
Defined.

(** ** [Unique] inside a chain *)

Section UniqueInChain.
Context {RT : Runtime} {T : Type} `{GoType T} `{!Comparable T} `{EqDecision T}.
Implicit Types (it : iter T) (h : heap T).

Lemma through_steps_step_first st ops (x : T) h :
  through_steps (step_op st :: ops) x h =
    match stage_elem st (Some x) with
    | Some y => through_steps ops y h
    | None => Ok (None, h)
    end.
Proof.
  destruct st as [f|p]; simpl; [done|]. unfold pure_fn. simpl. by destruct (p x).
Qed.

(** A step without effects at the head of the operations hands the slice it
    leaves to the operations after it. *)
Lemma collect_elements_step_first st ops (l : list T) h :
  collect_elements (step_op st :: ops) l h = collect_elements ops (stage st l) h.
Proof.
  revert h. induction l as [|x l IH]; intros h.
  { by destruct st. }
  cbn [collect_elements]. rewrite through_steps_step_first.
  destruct st as [f|p]; simpl.
  - destruct (through_steps ops (f x) h) as [[o h1]| |]; simpl; [|done..].
    by rewrite IH.
  - destruct (p x); simpl.
    + destruct (through_steps ops x h) as [[o h1]| |]; simpl; [|done..].
      by rewrite IH.
    + rewrite IH. simpl.
      by destruct (collect_elements ops (List.filter p l) h) as [[r h1]| |].
Qed.

Lemma collect_elements_steps_first steps ops (l : list T) h :
  collect_elements ((step_op <$> steps) ++ ops) l h =
    collect_elements ops (staged steps l) h.
Proof.
  revert l. induction steps as [|st steps IH]; intros l; [done|].
  rewrite fmap_cons. simpl. by rewrite collect_elements_step_first, IH.
Qed.

(** X14: [Unique] removes duplicates among the values that reach it, not
    among the raw elements.  In a chain [steps1], [Unique()], [steps2] of
    steps without effects, over a comparable element type, [Collect] returns
    [steps2] applied to the first occurrences of the values [steps1] leaves of
    the remaining elements; so duplicates that [steps2] creates stay, and
    values that only [steps1] makes equal are reduced to one. *)
Theorem Unique_in_a_chain it (steps1 steps2 : list (step T)) h :
  valid it → elems (operations it) = [] →
  ∃ it1 h1 h2,
    Unique [] (register it steps1) h = Ok (it1, h1) ∧
    Collect (register it1 steps2) h1 =
      Ok (staged steps2
            (first_occurrences (staged steps1 (drop (nextIndex it) (source it)))),
          set_nextIndex (length (source it)) (register it1 steps2), h2).
Proof.
  intros Hv Hops. rewrite Unique_plain by done.
  set (seen := fresh (dom h)).
  assert (Hd : ∀ l : list T, dedup_acc toAny ∅ l = first_occurrences l).
  { intros l. apply (dedup_acc_new_occurrences id toAny toAny); [apply _|done|].
    intros k. set_solver. }
  eexists _, _, _. split; [done|].
  rewrite Collect_collect_elements
    by by apply valid_register, valid_Filter, valid_register.
  rewrite elems_register, elems_Filter, elems_register, Hops.
  rewrite source_register, nextIndex_register. simpl.
  rewrite source_register, nextIndex_register.
  rewrite collect_elements_steps_last, collect_elements_steps_first.
  erewrite (collect_seen_filter seen toAny);
    [| |by rewrite lookup_insert_eq].
  - simpl. by rewrite Hd.
  - intros x _ h'. apply unique_filterFn_seen_filter, comparable_hashable.
Qed.

End UniqueInChain.

Lemma Unique_in_a_chain_witness :
  ∃ it1 h1 h2,
    valid ints_it ∧ elems (operations ints_it) = [] ∧
    Unique (RT := runtime64) []
      (register ints_it [MapStep (fun x => x `quot` 2)%Z]) ∅ = Ok (it1, h1) ∧
    Collect (register it1 [MapStep (fun x => x `quot` 2)%Z]) h1 =
      Ok ([0; 0]%Z,
          set_nextIndex 5 (register it1 [MapStep (fun x => x `quot` 2)%Z]), h2).
Proof.
  assert (Hv : valid ints_it) by (split; [reflexivity|simpl; lia]).
  destruct (Unique_in_a_chain (RT := runtime64) ints_it
              [MapStep (fun x => x `quot` 2)%Z] [MapStep (fun x => x `quot` 2)%Z]
              ∅ Hv eq_refl) as (it1 & h1 & h2 & HU & HC).
  exists it1, h1, h2. split; [exact Hv|]. split; [reflexivity|].
  split; [exact HU|]. exact HC.
Defined.

(** ** Where [Unique] panics *)

Section UniqueFailures.
Context {RT : Runtime} {T : Type} `{GoType T}.
Implicit Types (it : iter T) (h : heap T).

(** A key-recording filter that works on the elements before [x] and panics
    on [x]. *)
Lemma collect_elements_panics_at seen (kf : T → any) fn (l1 l2 : list T) x h p :
  (∀ y, y ∈ l1 → ∀ h', fn y h' = seen_filter seen (kf y) h') →
  (∀ h', fn x h' = Panic p) →
  is_Some (h !! seen) →
  collect_elements [filter_op fn] (l1 ++ x :: l2) h = Panic p.
Proof.
  intros Hl1 Hx [S HS]. rewrite collect_elements_app.
  rewrite (collect_seen_filter seen kf fn l1 h S) by done.
  cbn [mbind outcome_bind collect_elements].
  rewrite through_steps_filter, Hx. done.
Qed.

(** X15: [Unique()] on a cursor over an element type with values that cannot
    be used as map keys (slices, maps, functions inside the value) is
    accepted at registration; the panic comes at evaluation, when the first
    such value is reached: [Collect] then panics with the runtime's
    unhashable-key error and returns nothing, although the elements before it
    were filtered without error.  A cursor with no element left collects to
    the empty slice even then. *)
Theorem Unique_on_unhashable_elements it h (l1 l2 : list T) (x : T) :
  valid it → elems (operations it) = [] →
  drop (nextIndex it) (source it) = l1 ++ x :: l2 →
  (∀ y, y ∈ l1 → hashable (toAny y) = true) →
  hashable (toAny x) = false →
  ∃ it1 h1,
    Unique [] it h = Ok (it1, h1) ∧
    Collect it1 h1 = Panic UnhashableKey ∧
    Collect (set_nextIndex (length (source it1)) it1) h1 =
      Ok ([], set_nextIndex (length (source it1)) it1, h1).
Proof.
  intros Hv Hops Hdrop Hl1 Hx. rewrite Unique_plain by done.
  eexists _, _. split; [done|]. split.
  - rewrite Collect_collect_elements by by apply valid_Filter.
    rewrite elems_Filter, Hops. simpl. rewrite Hdrop.
    erewrite (collect_elements_panics_at (fresh (dom h)) toAny); [done|..].
    + intros y Hy h'. by apply unique_filterFn_seen_filter, Hl1.
    + intros h'. by apply unique_filterFn_unhashable.
    + rewrite lookup_insert_eq. by eexists.
  - rewrite Collect_collect_elements by (split; simpl; [apply Hv|lia]).
    simpl. by rewrite drop_all.
Qed.

(** X16: [Unique(DerefPointers(true))] panics at registration when the
    element type is an interface type, whose zero value has no type for
    [reflect.TypeOf(...).Kind()].  On a pointer type it is accepted, and
    evaluation panics in [reflect] when it reaches the first nil pointer,
    after filtering the elements before it without error. *)
Theorem DerefPointers_failures it h :
  (kindOfZero (T := T) = None →
     Unique [DerefPointers true] it h = Panic KindOnNilType) ∧
  (∀ (l1 l2 : list T) (x : T),
     kindOfZero (T := T) = Some Ptr →
     valid it → elems (operations it) = [] →
     drop (nextIndex it) (source it) = l1 ++ x :: l2 →
     (∀ y, y ∈ l1 → ∃ k, elemInterface y = Some k ∧ hashable k = true) →
     elemInterface x = None →
     ∃ it1 h1,
       Unique [DerefPointers true] it h = Ok (it1, h1) ∧
       Collect it1 h1 = Panic InterfaceOnZeroValue).
Proof.
  split.
  - intros Hk. by apply Unique_deref_nil_type.
  - intros l1 l2 x Hk Hv Hops Hdrop Hl1 Hx.
    rewrite (Unique_deref _ _ _ Ptr) by done.
    rewrite bool_decide_eq_true_2 by done.
    eexists _, _. split; [done|].
    rewrite Collect_collect_elements by by apply valid_Filter.
    rewrite elems_Filter, Hops. simpl. rewrite Hdrop.
    erewrite (collect_elements_panics_at (fresh (dom h))
                (fun y => default (toAny y) (elemInterface y))); [done|..].
    + intros y Hy h'. destruct (Hl1 y Hy) as (k & Hk1 & Hk2).
      rewrite Hk1. simpl. by apply unique_derefFilterFn_seen_filter.
    + intros h'. by apply unique_derefFilterFn_nil.
    + rewrite lookup_insert_eq. by eexists.
Qed.

End UniqueFailures.

Lemma Unique_on_unhashable_elements_witness :
  ∃ it1 h1,
    Unique (RT := runtime64) []
      (Iter false next_fn 0 [[1]; [2]]%Z (Slice [] 64)) ∅ = Ok (it1, h1) ∧
    Collect it1 h1 = Panic UnhashableKey.
Proof.
  destruct (Unique_on_unhashable_elements (RT := runtime64)
              (Iter false next_fn 0 [[1]; [2]]%Z (Slice [] 64)) ∅
              [] [[2]%Z] [1]%Z) as (it1 & h1 & HU & HC & _).
  - split; [reflexivity|simpl; lia].
  - reflexivity.
  - reflexivity.
  - intros y Hy. by apply elem_of_nil in Hy.
  - reflexivity.
  - exists it1, h1. split; [exact HU|exact HC].
Defined.

Lemma DerefPointers_failures_witness :
  ∃ it1 h1,
    Unique (RT := runtime64) (H := ptr_GoType ints_mem)
      [DerefPointers true] ptrs_nil_it ∅ = Ok (it1, h1) ∧
    Collect it1 h1 = Panic InterfaceOnZeroValue.
Proof.
  destruct (DerefPointers_failures (RT := runtime64) (H := ptr_GoType ints_mem)
              ptrs_nil_it ∅) as (_ & Hnil).
  destruct (Hnil [Some 0%nat] [] None) as (it1 & h1 & HU & HC).
  - reflexivity.
  - split; [reflexivity|simpl; lia].
  - reflexivity.
  - reflexivity.
  - intros y Hy. apply list_elem_of_singleton in Hy as ->. by eexists.
  - reflexivity.
  - exists it1, h1. split; [exact HU|exact HC].
Defined.

(** ** The capacity asked for with [BufferLen] *)

Section Preallocation.
Context {RT : Runtime} {T : Type} `{GoType T}.
Implicit Types (it : iter T) (h : heap T).

(** A call leaves the operations slice alone or appends one operation. *)
Lemma run_call_operations c it h o it' h' :
  valid it → run_call c it h = Ok (o, it', h') →
  operations it' = operations it ∨ ∃ op, operations it' = append (operations it) op.
Proof.
  intros Hv. destruct c; simpl.
  - rewrite Next_next by apply Hv. unfold next.
    case_bool_decide; simpl; [intros [= _ <- _]; by left|].
    destruct (source it !! nextIndex it); simpl; [|done].
    intros [= _ <- _]. by left.
  - rewrite ForEach_spec by done.
    destruct (fold_outcome _ _ _); simpl; [|done..]. intros [= _ <- _]. by left.
  - intros [= _ <- _]. right. by eexists.
  - intros [= _ <- _]. right. by eexists.
  - unfold Unique, make_map. simpl.
    destruct (deref _); simpl; [destruct kindOfZero; simpl; [|done]|];
      intros [= _ <- _]; right; by eexists.
  - rewrite Collect_collect_elements by done.
    destruct (collect_elements _ _ _) as [[] | |]; simpl; [|done..].
    intros [= _ <- _]. by left.
  - unfold IntoChannel. rewrite ForEach_spec by done.
    destruct (fold_outcome _ _ _); simpl; [|done..]. intros [= _ <- _]. by left.
  - unfold IntoChannel. rewrite ForEach_spec by done.
    destruct (fold_outcome _ _ _); simpl; [|done..]. intros [= _ <- _]. by left.
  - unfold CollectIntoChannel. rewrite Collect_collect_elements by done.
    destruct (collect_elements _ _ _) as [[] | |]; simpl; [|done..].
    intros [= _ <- _]. by left.
  - unfold CollectIntoChannel. rewrite Collect_collect_elements by done.
    destruct (collect_elements _ _ _) as [[] | |]; simpl; [|done..].
    intros [= _ <- _]. by left.
  - unfold Reduce. rewrite ForEach_spec by done.
    destruct (fold_outcome _ _ _) as [[] | |]; simpl; [|done..].
    intros [= _ <- _]. by left.
  - intros [= _ <- _]. by left.
Qed.

Lemma append_in_place {A : Type} (s : slice A) (x : A) (n : Z) :
  (Z.of_nat (length (elems (append s x))) ≤ n)%Z →
  ((Z.of_nat (length (elems s)) ≤ n)%Z → capacity s = n) →
  capacity (append s x) = n.
Proof.
  intros Hlen Hcap. rewrite elems_append, length_app in Hlen. simpl in Hlen.
  unfold append. rewrite bool_decide_eq_true_2; simpl; [apply Hcap|rewrite Hcap]; lia.
Qed.

Lemma run_calls_in_place cs it h os it' h' (n : Z) :
  valid it →
  run_calls cs it h = Ok (os, it', h') →
  (Z.of_nat (length (elems (operations it'))) ≤ n)%Z →
  ((Z.of_nat (length (elems (operations it))) ≤ n)%Z → capacity (operations it) = n) →
  capacity (operations it') = n.
Proof.
  revert it h os. induction cs as [|c cs IH]; intros it h os Hv; simpl.
  { intros [= _ <- _]. auto. }
  destruct (run_call c it h) as [[[o it1] h1]| |] eqn:Hc; simpl; [|done..].
  destruct (run_calls cs it1 h1) as [[[os1 it2] h2]| |] eqn:Hcs; simpl; [|done..].
  intros [= _ <- <-] Hlen Hcap.
  eapply IH; [by eapply run_call_valid|done..|].
  destruct (run_call_operations _ _ _ _ _ _ Hv Hc) as [-> | [op ->]]; [done|].
  intros Hlen1. by apply append_in_place.
Qed.

(** X17: the cursor is built with room for [BufferLen(n)] operations (64 by
    default), and as long as a client has registered no more than that, with
    [Map], [Filter] and [Unique] in any number and order between any other
    calls, the operations slice still has exactly that capacity: no [append]
    has moved it to a new array. *)
Theorem BufferLen_preallocates (src : list T) (opts : list FromOption)
    (cs : list (call T)) it0 h os it h' :
  From src opts = Ok it0 →
  run_calls cs it0 h = Ok (os, it, h') →
  (Z.of_nat (length (elems (operations it))) ≤ bufferLen (from_options opts))%Z →
  capacity (operations it) = bufferLen (from_options opts) ∧
  capacity (operations it0) = bufferLen (from_options opts).
Proof.
  intros HF Hrun Hlen.
  assert (Hcap0 : capacity (operations it0) = bufferLen (from_options opts)).
  { destruct (decide (0 ≤ bufferLen (from_options opts) ≤ maxFuncCap)%Z) as [Hb|Hb].
    - rewrite From_Ok in HF by done. by injection HF as <-.
    - by rewrite From_Panic in HF by lia. }
  split; [|done].
  apply From_inv in HF as (Hv & _).
  by eapply run_calls_in_place.
Qed.

End Preallocation.

Lemma BufferLen_preallocates_witness :
  ∃ it0 os it h',
    From (RT := runtime64) [1; 2; 3]%Z [BufferLen 2] = Ok it0 ∧
    run_calls [CallFilter (pure_fn even); CallNext; CallMap (pure_fn Z.succ)] it0 ∅
      = Ok (os, it, h') ∧
    capacity (operations it) = 2%Z.
Proof.
  eexists _, _, _, _.
  assert (HF : From (RT := runtime64) [1; 2; 3]%Z [BufferLen 2] = Ok _)
    by reflexivity.
  assert (Hrun : run_calls [CallFilter (pure_fn even); CallNext; CallMap (pure_fn Z.succ)]
                   (Iter false next_fn 0 [1; 2; 3]%Z (Slice [] 2)) ∅ = Ok _)
    by (vm_compute; reflexivity).
  split; [exact HF|]. split; [exact Hrun|].
  refine (proj1 (BufferLen_preallocates _ _ _ _ _ _ _ _ HF Hrun _)).
  vm_compute. discriminate.
Defined.

(** ** Concurrent callers of [Next] on a thread-safe cursor *)

Section Concurrency.
Context {RT : Runtime} {T : Type} `{GoType T}.
Implicit Types (it : iter T) (h : heap T) (c : caller T) (cs : list (caller T)).

Lemma concat_yielded_insert cs i c c' :
  cs !! i = Some c →
  concat (yielded <$> <[i := c']> cs) ≡ₚ
    yielded c' ++ concat (yielded <$> delete i cs).
Proof.
  intros Hi. apply lookup_lt_Some in Hi as Hlt.
  rewrite insert_take_drop by done. rewrite delete_take_drop.
  rewrite !fmap_app, fmap_cons, !concat_app. simpl.
  by rewrite Permutation_app_swap_app.
Qed.

Lemma concat_yielded_delete cs i c :
  cs !! i = Some c →
  concat (yielded <$> cs) ≡ₚ yielded c ++ concat (yielded <$> delete i cs).
Proof.
  intros Hi. rewrite <- (concat_yielded_insert cs i c c Hi).
  by rewrite list_insert_id.
Qed.

Lemma concat_yielded_same cs i c c' :
  cs !! i = Some c → yielded c' = yielded c →
  concat (yielded <$> <[i := c']> cs) ≡ₚ concat (yielded <$> cs).
Proof.
  intros Hi Hy.
  by rewrite (concat_yielded_insert cs i c c' Hi), Hy, <- concat_yielded_delete.
Qed.

Lemma elem_of_insert_inv cs i c' c0 :
  c0 ∈ <[i := c']> cs → c0 = c' ∨ c0 ∈ cs.
Proof.
  intros (j & Hj)%list_elem_of_lookup_1.
  rewrite list_lookup_insert in Hj. case_decide; simplify_eq; [by left|right].
  by eapply list_elem_of_lookup_2.
Qed.

Lemma holder_insert cs i c c' :
  cs !! i = Some c →
  (∀ j c0, cs !! j = Some c0 → inside c0 → j = i) →
  <[i := c']> cs !! i = Some c' ∧
  ∀ j c0, <[i := c']> cs !! j = Some c0 → inside c0 → j = i.
Proof.
  intros Hi Huniq. apply lookup_lt_Some in Hi as Hlt. split.
  - by apply list_lookup_insert_eq.
  - intros j c0. destruct (decide (i = j)) as [<- | Hj]; [done|].
    rewrite list_lookup_insert_ne by done. apply Huniq.
Qed.

Lemma yielded_returned (got : list (T * bool)) (v : T) (b : bool) :
  yielded (Caller Outside (got ++ [(v, b)])) = yielded (Caller (Leaving v b) got).
Proof.
  unfold yielded. simpl. rewrite omap_app. simpl.
  destruct b; simpl; by rewrite ?app_nil_r.
Qed.

Lemma sync_step_inv src it cs it' cs' :
  sync_inv src it cs → sync_step (it, cs) (it', cs') → sync_inv src it' cs'.
Proof.
  intros (Hsrc & Hnf & Hle & Hperm & Hsub & Hex) Hstep.
  inversion Hstep as [? ? ? i got Hi Hnf' HL| ? ? i got Hi Hend| ? ? i got Hi Hmore
                     | ? ? i got v Hi Hv| ? ? i got v Hi| ? ? i got v b Hi];
    subst; clear Hstep.
  - (* Lock *)
    unfold Lock in HL. destruct (mu it) eqn:Hmu; [done|]. injection HL as <-.
    destruct Hex as [[_ Hout]|[? _]]; [|done].
    split_and!; try done.
    + by rewrite (concat_yielded_same cs i _ _ Hi).
    + intros c0 [-> | Hc0]%elem_of_insert_inv; [|by apply Hsub].
      apply (Hsub (Caller Outside got)). by eapply list_elem_of_lookup_2.
    + right. split; [done|]. exists i, (Caller Holding got).
      apply lookup_lt_Some in Hi as Hlt.
      split_and!; [by apply list_lookup_insert_eq|done| |done].
      intros j c0. destruct (decide (i = j)) as [<- | Hj]; [done|].
      rewrite list_lookup_insert_ne by done.
      intros Hc0 Hin. exfalso. apply Hin, Hout. by eapply list_elem_of_lookup_2.
  - (* the test of [next], at the end *)
    destruct Hex as [[_ Hout]|[Hmu (i0 & c & Hi0 & Hin & Huniq & _)]].
    { specialize (Hout _ (list_elem_of_lookup_2 _ _ _ Hi)). done. }
    assert (i = i0) as <- by (by eapply Huniq).
    destruct (holder_insert cs i _ (Caller (Leaving zero false) got) Hi Huniq)
      as [Hi' Huniq'].
    split_and!; try done.
    + by rewrite (concat_yielded_same cs i _ _ Hi).
    + intros c0 [-> | Hc0]%elem_of_insert_inv; [|by apply Hsub].
      apply (Hsub (Caller Holding got)). by eapply list_elem_of_lookup_2.
    + right. split; [done|]. by eexists i, _.
  - (* the test of [next], not at the end *)
    destruct Hex as [[_ Hout]|[Hmu (i0 & c & Hi0 & Hin & Huniq & _)]].
    { specialize (Hout _ (list_elem_of_lookup_2 _ _ _ Hi)). done. }
    assert (i = i0) as <- by (by eapply Huniq).
    destruct (holder_insert cs i _ (Caller Checked got) Hi Huniq) as [Hi' Huniq'].
    split_and!; try done.
    + by rewrite (concat_yielded_same cs i _ _ Hi).
    + intros c0 [-> | Hc0]%elem_of_insert_inv; [|by apply Hsub].
      apply (Hsub (Caller Holding got)). by eapply list_elem_of_lookup_2.
    + right. split; [done|]. by eexists i, _.
  - (* the load of the element *)
    destruct Hex as [[_ Hout]|[Hmu (i0 & c & Hi0 & Hin & Huniq & _)]].
    { specialize (Hout _ (list_elem_of_lookup_2 _ _ _ Hi)). done. }
    assert (i = i0) as <- by (by eapply Huniq).
    destruct (holder_insert cs i _ (Caller (Loaded v) got) Hi Huniq) as [Hi' Huniq'].
    split_and!; try done.
    + by rewrite (concat_yielded_same cs i _ _ Hi).
    + intros c0 [-> | Hc0]%elem_of_insert_inv; [|by apply Hsub].
      apply (Hsub (Caller Checked got)). by eapply list_elem_of_lookup_2.
    + right. split; [done|]. by eexists i, _.
  - (* the increment *)
    destruct Hex as [[_ Hout]|[Hmu (i0 & c & Hi0 & Hin & Huniq & Hph)]].
    { specialize (Hout _ (list_elem_of_lookup_2 _ _ _ Hi)). done. }
    assert (i = i0) as <- by (by eapply Huniq).
    rewrite Hi in Hi0. injection Hi0 as <-. simpl in Hph.
    destruct (holder_insert cs i _ (Caller (Leaving v true) got) Hi Huniq)
      as [Hi' Huniq'].
    apply lookup_lt_Some in Hph as Hlt.
    split_and!; simpl; try done.
    + lia.
    + rewrite Nat.add_1_r, (take_S_r _ _ _ Hph).
      rewrite (concat_yielded_insert cs i _ _ Hi).
      rewrite (concat_yielded_delete cs i _ Hi) in Hperm.
      unfold yielded at 1. simpl. unfold yielded at 1 in Hperm. simpl in Hperm.
      rewrite app_nil_r in Hperm. rewrite <- Hperm.
      rewrite <- !app_assoc. apply Permutation_app_head.
      apply Permutation_app_comm.
    + rewrite Nat.add_1_r, (take_S_r _ _ _ Hph).
      intros c0 [-> | Hc0]%elem_of_insert_inv.
      * unfold yielded. simpl. apply sublist_app; [|done].
        specialize (Hsub _ (list_elem_of_lookup_2 _ _ _ Hi)).
        unfold yielded in Hsub. simpl in Hsub. by rewrite app_nil_r in Hsub.
      * by apply sublist_inserts_r, Hsub.
    + right. split; [done|]. by eexists i, _.
  - (* Unlock *)
    destruct Hex as [[_ Hout]|[Hmu (i0 & c & Hi0 & Hin & Huniq & _)]].
    { specialize (Hout _ (list_elem_of_lookup_2 _ _ _ Hi)). done. }
    assert (i = i0) as <- by (by eapply Huniq).
    split_and!; simpl; try done.
    + rewrite (concat_yielded_same cs i _ _ Hi); [done|]. apply yielded_returned.
    + intros c0 [-> | Hc0]%elem_of_insert_inv; [|by apply Hsub].
      rewrite yielded_returned.
      apply (Hsub (Caller (Leaving v b) got)). by eapply list_elem_of_lookup_2.
    + left. split; [done|].
      apply lookup_lt_Some in Hi as Hlt.
      intros c0 (j & Hj)%list_elem_of_lookup_1. revert Hj.
      destruct (decide (i = j)) as [<- | Hj].
      { rewrite list_lookup_insert_eq by done. by intros [= <-]. }
      rewrite list_lookup_insert_ne by done.
      intros Hc0. destruct (at_phase c0) eqn:Hph; [done|..];
        exfalso; apply Hj; symmetry; apply (Huniq j c0 Hc0);
        unfold inside; by rewrite Hph.
Qed.

Lemma sync_step_length it cs it' cs' :
  sync_step (it, cs) (it', cs') → length cs' = length cs.
Proof. inversion 1; subst; by rewrite length_insert. Qed.

Lemma sync_steps_inv src it0 cs0 it cs :
  sync_inv src it0 cs0 →
  rtc sync_step (it0, cs0) (it, cs) →
  sync_inv src it cs ∧ length cs = length cs0.
Proof.
  intros Hinv Hrtc.
  cut (sync_inv src (it, cs).1 (it, cs).2 ∧ length (it, cs).2 = length cs0); [done|].
  revert Hrtc. generalize (it, cs). apply rtc_ind_r; [done|].
  intros [it1 cs1] [it2 cs2] _ Hstep [Hinv1 Hlen1]. simpl in *. split.
  - by eapply sync_step_inv.
  - by rewrite (sync_step_length _ _ _ _ Hstep).
Qed.

Lemma sync_inv_start it0 (n : nat) :
  valid it0 → nextIndex it0 = 0 → nextFunc it0 = synchronizedNext_fn →
  sync_inv (source it0) it0 (replicate n (Caller Outside [])).
Proof.
  intros [Hmu Hle] Hidx Hnf.
  assert (Hnil : concat (yielded <$> replicate n (Caller (T := T) Outside [])) = []).
  { induction n as [|n IH]; [done|].
    change (yielded (Caller (T := T) Outside []) ++
            concat (yielded <$> replicate n (Caller (T := T) Outside [])) = []).
    by rewrite IH. }
  unfold sync_inv. rewrite Hidx, Hnil, take_0.
  split_and!; [done|done|lia|done| |].
  - by intros c [-> _]%elem_of_replicate.
  - left. split; [done|]. by intros c [-> _]%elem_of_replicate.
Qed.

(** In every state the invariant allows, some goroutine can take a step. *)
Lemma sync_inv_progress src it cs :
  sync_inv src it cs → cs ≠ [] → ∃ w, sync_step (it, cs) w.
Proof.
  intros (Hsrc & Hnf & Hle & Hperm & Hsub & Hex) Hne.
  destruct Hex as [[Hmu Hout]|[Hmu (i & [ph got] & Hi & Hin & Huniq & Hph)]].
  - destruct cs as [|[ph got] cs]; [done|].
    specialize (Hout (Caller ph got) ltac:(by left)). simpl in Hout. subst ph.
    eexists. eapply (sync_lock it _ _ 0 got); [done..|].
    unfold Lock. by rewrite Hmu.
  - destruct ph as [| | |v|v b]; simpl in *.
    + by destruct Hin.
    + destruct (decide (length (source it) ≤ nextIndex it)).
      * eexists. by eapply sync_at_end.
      * eexists. eapply sync_not_at_end; [done|lia].
    + destruct (lookup_lt_is_Some_2 (source it) (nextIndex it)) as [v Hv];
        [by rewrite Hsrc|].
      eexists. by eapply sync_load.
    + eexists. by eapply sync_increment.
    + eexists. by eapply sync_unlock.
Qed.

(** A goroutine on its own goes through these steps from the call of [Next]
    to what [Next] returns. *)
Lemma sync_steps_alone it got v b it' :
  nextFunc it = synchronizedNext_fn →
  Next it = Ok (v, b, it') →
  rtc sync_step (it, [Caller Outside got]) (it', [Caller Outside (got ++ [(v, b)])]).
Proof.
  intros Hnf. unfold Next. rewrite Hnf. unfold synchronizedNext, Lock.
  destruct (mu it) eqn:Hmu; simpl; [done|]. unfold next. simpl.
  case_bool_decide as Hend; simpl.
  - intros [= <- <- <-].
    eapply rtc_l; [eapply (sync_lock _ _ _ 0); [done..|unfold Lock; by rewrite Hmu]|].
    eapply rtc_l; [by eapply (sync_at_end _ _ 0)|].
    eapply rtc_l; [by eapply (sync_unlock _ _ 0)|]. done.
  - destruct (source it !! nextIndex it) as [x|] eqn:Hx; simpl; [|done].
    intros [= <- <- <-].
    eapply rtc_l; [eapply (sync_lock _ _ _ 0); [done..|unfold Lock; by rewrite Hmu]|].
    eapply rtc_l; [eapply (sync_not_at_end _ _ 0); [done|simpl; lia]|].
    eapply rtc_l; [by eapply (sync_load _ _ 0)|].
    eapply rtc_l; [by eapply (sync_increment _ _ 0)|].
    eapply rtc_l; [by eapply (sync_unlock _ _ 0)|]. done.
Qed.

(** X18: any number of goroutines call [Next] again and again on one cursor
    built with [ThreadSafe(true)], their steps inside [synchronizedNext]
    interleaved in any way.  At every moment at most one of them is past
    [Lock], and the mutex is held exactly then; the elements the goroutines
    have taken are together exactly the first [nextIndex] elements of the
    source, each taken once, and each goroutine got its elements in source
    order; no index is out of range; and some goroutine can always take a
    step.  A goroutine on its own reaches through these steps what [Next]
    returns. *)
Theorem synchronizedNext_concurrent (src : list T) (opts : list FromOption)
    it0 (n : nat) it cs :
  From src (opts ++ [ThreadSafe true]) = Ok it0 →
  rtc sync_step (it0, replicate n (Caller Outside [])) (it, cs) →
  length cs = n ∧ source it = src ∧ nextIndex it ≤ length src ∧
  concat (yielded <$> cs) ≡ₚ take (nextIndex it) src ∧
  (∀ c, c ∈ cs → yielded c `sublist_of` src) ∧
  (∀ i j ci cj,
     cs !! i = Some ci → cs !! j = Some cj → inside ci → inside cj → i = j) ∧
  (mu it = true ↔ ∃ c, c ∈ cs ∧ inside c) ∧
  (0 < n → ∃ w, sync_step (it, cs) w) ∧
  (∀ got v b it',
     Next it0 = Ok (v, b, it') →
     rtc sync_step (it0, [Caller Outside got])
       (it', [Caller Outside (got ++ [(v, b)])])).
Proof.
  intros HF Hrtc.
  assert (Hnf : nextFunc it0 = synchronizedNext_fn).
  { destruct (decide (0 ≤ bufferLen (from_options opts) ≤ maxFuncCap)%Z) as [Hb|Hb].
    - rewrite From_Ok in HF by (by rewrite from_options_ThreadSafe).
      injection HF as <-. simpl. by rewrite from_options_ThreadSafe.
    - by rewrite From_Panic in HF by (rewrite from_options_ThreadSafe; simpl; lia). }
  apply From_inv in HF as (Hv & Hidx & Hsrc & _).
  pose proof (sync_inv_start it0 n Hv Hidx Hnf) as Hinv0. rewrite Hsrc in Hinv0.
  destruct (sync_steps_inv _ _ _ _ _ Hinv0 Hrtc) as [Hinv Hlen].
  rewrite length_replicate in Hlen.
  pose proof Hinv as (Hs & _ & Hle & Hperm & Hsub & Hex).
  split_and!; try done.
  - intros c Hc. etrans; [by apply Hsub|]. apply sublist_take.
  - intros i j ci cj Hi Hj Hini Hinj.
    destruct Hex as [[_ Hout]|[_ (i0 & c & _ & _ & Huniq & _)]].
    + destruct Hini. apply Hout. by eapply list_elem_of_lookup_2.
    + by rewrite (Huniq i ci), (Huniq j cj).
  - destruct Hex as [[Hmu Hout]|[Hmu (i0 & c & Hi0 & Hin & _)]].
    + rewrite Hmu. split; [done|]. intros (c & Hc & Hin). destruct Hin. by apply Hout.
    + split; [|done]. intros _. exists c. split; [|done].
      by eapply list_elem_of_lookup_2.
  - intros Hn. eapply sync_inv_progress; [done|].
    destruct cs; [simpl in Hlen; lia|done].
  - intros got v b it'. by apply sync_steps_alone.
Qed.

End Concurrency.

Lemma synchronizedNext_concurrent_witness :
  From (RT := runtime64) [1; 2; 3]%Z ([] ++ [ThreadSafe true])
    = Ok (Iter false synchronizedNext_fn 0 [1; 2; 3]%Z (Slice [] 64)) ∧
  rtc sync_step
    (Iter false synchronizedNext_fn 0 [1; 2; 3]%Z (Slice [] 64),
     replicate 2 (Caller Outside []))
    (Iter true synchronizedNext_fn 0 [1; 2; 3]%Z (Slice [] 64),
     [Caller Holding []; Caller Outside []]) ∧
  length [Caller (T := Z) Holding []; Caller Outside []] = 2%nat.
Proof.
  assert (HF : From (RT := runtime64) [1; 2; 3]%Z ([] ++ [ThreadSafe true])
                 = Ok (Iter false synchronizedNext_fn 0 [1; 2; 3]%Z (Slice [] 64)))
    by reflexivity.
  assert (Hrtc : rtc sync_step
            (Iter false synchronizedNext_fn 0 [1; 2; 3]%Z (Slice [] 64),
             replicate 2 (Caller Outside []))
            (Iter true synchronizedNext_fn 0 [1; 2; 3]%Z (Slice [] 64),
             [Caller Holding []; Caller Outside []])).
  { apply rtc_once.
    exact (sync_lock (Iter false synchronizedNext_fn 0 [1; 2; 3]%Z (Slice [] 64))
             _ (replicate 2 (Caller Outside [])) 0 [] eq_refl eq_refl eq_refl). }
  split; [exact HF|]. split; [exact Hrtc|].
  exact (proj1 (synchronizedNext_concurrent _ _ _ _ _ _ HF Hrtc)).
Defined.

(** ** A filter after a map *)

Section Swap.
Context {RT : Runtime} {T : Type} `{GoType T}.
Implicit Types (it : iter T) (h : heap T).

Lemma filter_fmap (f : T → T) (p : T → bool) (l : list T) :
  List.filter p (f <$> l) = f <$> List.filter (p ∘ f) l.
Proof.
  induction l as [|x l IH]; [done|].
  change (List.filter p (f x :: (f <$> l)) = f <$> List.filter (p ∘ f) (x :: l)).
  cbn [List.filter]. change ((p ∘ f) x) with (p (f x)).
  destruct (p (f x)); rewrite IH; done.
Qed.

(** X19: for functions without effects, filtering the mapped values is the
    same as filtering the raw values on the mapped value and mapping what is
    kept: [Map(f).Filter(p)] and [Filter(p ∘ f).Map(f)] make [Collect] return
    the same slice and leave the same index, on every valid cursor and
    whatever was registered before. *)
Theorem Map_Filter_swap it h (f : T → T) (p : T → bool) :
  valid it →
  collected (Collect (Filter (pure_fn p) (Map (pure_fn f) it)) h) =
  collected (Collect (Map (pure_fn f) (Filter (pure_fn (p ∘ f)) it)) h) ∧
  (elems (operations it) = [] →
   collected (Collect (Filter (pure_fn p) (Map (pure_fn f) it)) h) =
     Ok (List.filter p (f <$> drop (nextIndex it) (source it)),
         length (source it), h)).
Proof.
  intros Hv.
  assert (HL : collected (Collect (Filter (pure_fn p) (Map (pure_fn f) it)) h) =
    '(r, h') ← collect_elements (elems (operations it))
                 (drop (nextIndex it) (source it)) h;
    Ok (List.filter p (f <$> r), length (source it), h')).
  { unfold collected.
    rewrite Collect_collect_elements by by apply valid_Filter, valid_Map.
    rewrite elems_Filter, elems_Map.
    change (filter_op (pure_fn p)) with (step_op (FilterStep p)).
    change (map_op (pure_fn f)) with (step_op (MapStep f)).
    rewrite !collect_elements_step_last. simpl.
    by destruct (collect_elements _ _ _) as [[r h']| |]. }
  split.
  - rewrite HL. unfold collected.
    rewrite Collect_collect_elements by by apply valid_Map, valid_Filter.
    rewrite elems_Map, elems_Filter.
    change (filter_op (pure_fn (p ∘ f))) with (step_op (FilterStep (p ∘ f))).
    change (map_op (pure_fn f)) with (step_op (MapStep f)).
    rewrite !collect_elements_step_last. simpl.
    destruct (collect_elements _ _ _) as [[r h']| |]; simpl; [|done..].
    by rewrite filter_fmap.
  - intros Hops. by rewrite HL, Hops, collect_elements_no_steps.
Qed.

End Swap.

Lemma Map_Filter_swap_witness :
  valid ints_it ∧
  collected (Collect (Filter (pure_fn div3) (Map (pure_fn (fun x => x * 3)%Z) ints_it)) ∅) =
  collected (Collect (Map (pure_fn (fun x => x * 3)%Z)
                        (Filter (pure_fn (div3 ∘ (fun x => x * 3)%Z)) ints_it)) ∅).
Proof.
  assert (Hv : valid ints_it) by (split; [reflexivity|simpl; lia]).
  split; [exact Hv|].
  exact (proj1 (Map_Filter_swap ints_it ∅ (fun x => x * 3)%Z div3 Hv)).
Defined.

(** ** What [From] returns *)

Section Construction.
Context {RT : Runtime} {T : Type} `{GoType T}.
Implicit Types (it : iter T) (h : heap T).


End Construction.
